(** * pySim-trace: the APDU trace loop

    A shallow embedding of [pySim-trace.py]: the [Tracer] class (its
    constructor, [format_capdu] and the [main] loop), the option defaults of
    the command line, and the merge of the command sets.  The collaborators
    that live in other modules of pySim (the APDU decoder, the command
    interpreters, the runtime state and the event source) are an interface of
    the loop here; further down they are given the behaviour that the
    specification describes. *)

From Stdlib Require Import Ascii String.
From stdpp Require Import base option list strings pretty gmap.

Open Scope string_scope.
Open Scope list_scope.

(** ** Python results *)

(** Exceptions that can travel through [main].  The script installs no
    handler, so every one of them ends the loop. *)
Inductive Exn :=
| EndOfStream
| SourceFailure (msg : string)
| AttributeError (msg : string)
| ValueError (msg : string).

(** The call of [main] inside which an exception was raised (what the
    traceback shows). *)
Inductive Site := AtSource | AtRead | AtReset | AtInput | AtProcess.

(** A call either returns a value or raises. *)
Inductive Result (A : Type) :=
| Ok (a : A)
| Err (e : Exn).
Arguments Ok {A} a.
Arguments Err {A} e.

(** How a run of a Python function ends: it returns, an exception leaves
    it, or (for a run observed on a finite prefix of the input) it is still
    inside its loop, blocked in [source.read()]. *)
Inductive Outcome :=
| Returned
| Raised (s : Site) (e : Exn)
| Running.

(** ** Events of the source *)

(** What [source.read()] hands to the loop: an APDU, or a [CardReset]
    object. *)
Inductive Event (Apdu : Type) :=
| ApduEv (a : Apdu)
| CardReset.
Arguments ApduEv {Apdu} a.
Arguments CardReset {Apdu}.

(** One call of [source.read()]: it yields an event or raises. *)
Inductive ReadResult (Apdu : Type) :=
| Yield (ev : Event Apdu)
| Raise (e : Exn).
Arguments Yield {Apdu} ev.
Arguments Raise {Apdu} e.

(** A source, seen from the loop, is the list of results of its successive
    [read()] calls.  When the list is used up the next [read()] blocks. *)
Definition Source (Apdu : Type) := list (ReadResult Apdu).

Definition isinstance_CardReset {Apdu} (ev : Event Apdu) : bool :=
  match ev with CardReset => true | ApduEv _ => false end.

(** ** Classes of decoded commands *)

(** The class of a decoded command, as far as [isinstance] in [main] can
    tell: [UiccSelect], [UiccStatus], or any other [ApduCommand]. *)
Inductive ApduClass := UiccSelect | UiccStatus | ApduCommand.

Global Instance ApduClass_eq_dec : EqDecision ApduClass.
Proof. solve_decision. Defined.

(** ** The collaborators of the loop *)

(** [ApduDecoder.input], [ApduCommand.process], [RuntimeState.reset] and the
    attributes of a decoded command that [format_capdu] reads. *)
Class TraceIface (Apdu Inst RS : Type) := {
  ad_input : Apdu -> Result Inst;
  inst_process : Inst -> RS -> Result (Inst * RS);
  rs_reset : RS -> Result RS;
  inst_class : Inst -> ApduClass;
  lchan_nr : Inst -> nat;
  inst_name : Inst -> string;
  path_str : Inst -> string;
  col_id : Inst -> string;
  col_sw : Inst -> string;
  processed : Inst -> string
}.

(** ** Formatting *)

Fixpoint fill (n : nat) (c : ascii) : string :=
  match n with
  | O => ""
  | S n' => String c (fill n' c)
  end.

(** [%-Ns]: left-justified in a field of at least [w] characters. *)
Definition ljust (w : nat) (s : string) : string :=
  s +:+ fill (w - String.length s) " "%char.

(** [%02u]: decimal, zero-padded to at least two digits. *)
Definition fmt_02u (n : nat) : string :=
  let d := pretty n in
  fill (2 - String.length d) "0"%char +:+ d.

Definition separator : string := "===============================".

(** ** The tracer *)

Section Tracer.
Context {Apdu Inst RS : Type} `{TraceIface Apdu Inst RS}.

(** What the loop does, in the order it does it. *)
Inductive Action :=
| ARead
| AReset
| AInput (a : Apdu)
| AProcess (i : Inst)
| ASuppress (i : Inst)
| APrint (i : Inst).

(** The keyword arguments of [Tracer.__init__]. *)
Record Kwargs := {
  kw_suppress_status : option bool;
  kw_suppress_select : option bool;
  kw_source : option (Source Apdu)
}.

Record Tracer := {
  rs : RS;
  suppress_status : bool;
  suppress_select : bool;
  source : option (Source Apdu)
}.

(** [Tracer.__init__]; [rs0] is the [RuntimeState(card, profile)] it builds. *)
Definition Tracer_init (rs0 : RS) (kwargs : Kwargs) : Tracer :=
  {| rs := rs0;
     suppress_status := default true (kw_suppress_status kwargs);
     suppress_select := default true (kw_suppress_select kwargs);
     source := kw_source kwargs |}.

(** [Tracer.format_capdu]: the arguments of its two [print] calls, the
    record and the separator. *)
Definition format_capdu (inst : Inst) : list string :=
  [ fmt_02u (lchan_nr inst) +:+ " " +:+ ljust 16 (inst_name inst) +:+ " "
      +:+ ljust 35 (path_str inst) +:+ " " +:+ ljust 8 (col_id inst) +:+ " "
      +:+ col_sw inst +:+ " " +:+ processed inst;
    separator ].

(** The body of the [while True] loop after the read (lines 99 to 115):
    the actions performed, and the runtime state the next iteration starts
    from, or the exception that leaves the loop. *)
Definition loop_body (sup_select sup_status : bool) (st : RS) (ev : Event Apdu)
  : list Action * (Site * Exn + RS) :=
  match ev with
  | CardReset =>
      match rs_reset st with
      | Err e => ([AReset], inl (AtReset, e))
      | Ok st' => ([AReset], inr st')
      end
  | ApduEv apdu =>
      match ad_input apdu with
      | Err e => ([AInput apdu], inl (AtInput, e))
      | Ok inst =>
          match inst_process inst st with
          | Err e => ([AInput apdu; AProcess inst], inl (AtProcess, e))
          | Ok (inst', st') =>
              if sup_select && bool_decide (inst_class inst' = UiccSelect)
              then ([AInput apdu; AProcess inst; ASuppress inst'], inr st')
              else if sup_status && bool_decide (inst_class inst' = UiccStatus)
              then ([AInput apdu; AProcess inst; ASuppress inst'], inr st')
              else ([AInput apdu; AProcess inst; APrint inst'], inr st')
          end
      end
  end.

(** A run of the loop: what it did, the runtime state it reached, and how
    it stands. *)
Record Run := {
  log : list Action;
  final_rs : RS;
  outcome : Outcome
}.

Definition after (acts : list Action) (r : Run) : Run :=
  {| log := acts ++ log r; final_rs := final_rs r; outcome := outcome r |}.

(** The [while True] loop of [Tracer.main] over the reads of the source. *)
Fixpoint main_loop (sup_select sup_status : bool) (st : RS) (src : Source Apdu)
  : Run :=
  match src with
  | [] => {| log := [ARead]; final_rs := st; outcome := Running |}
  | Raise e :: _ => {| log := [ARead]; final_rs := st; outcome := Raised AtRead e |}
  | Yield ev :: rest =>
      match loop_body sup_select sup_status st ev with
      | (acts, inl (site, e)) =>
          {| log := ARead :: acts; final_rs := st; outcome := Raised site e |}
      | (acts, inr st') =>
          after (ARead :: acts) (main_loop sup_select sup_status st' rest)
      end
  end.

(** [Tracer.main]. *)
Definition main (t : Tracer) : Run :=
  match source t with
  | None =>
      {| log := []; final_rs := rs t;
         outcome := Raised AtSource (AttributeError "'NoneType' object has no attribute 'read'") |}
  | Some src => main_loop (suppress_select t) (suppress_status t) (rs t) src
  end.

(** *** Observations on a run *)

(** The arguments of the [print] calls made, in order. *)
Definition stdout (l : list Action) : list string :=
  flat_map (fun a => match a with APrint i => format_capdu i | _ => [] end) l.

(** The decoded and processed commands that reached the output filter. *)
Definition records (l : list Action) : list Inst :=
  omap (fun a => match a with APrint i | ASuppress i => Some i | _ => None end) l.

(** The commands handed to [format_capdu]. *)
Definition printed (l : list Action) : list Inst :=
  omap (fun a => match a with APrint i => Some i | _ => None end) l.

(** The commands dropped by the output filter. *)
Definition suppressed (l : list Action) : list Inst :=
  omap (fun a => match a with ASuppress i => Some i | _ => None end) l.

(** The exchanges handed to the decoder. *)
Definition inputs (l : list Action) : list Apdu :=
  omap (fun a => match a with AInput x => Some x | _ => None end) l.

(** The commands whose [process] was called. *)
Definition processes (l : list Action) : list Inst :=
  omap (fun a => match a with AProcess i => Some i | _ => None end) l.

(** The number of calls of [RuntimeState.reset]. *)
Definition resets (l : list Action) : nat :=
  length (omap (fun a => match a with AReset => Some tt | _ => None end) l).

(** The exchanges a source delivers before its first raising read. *)
Fixpoint arrived (src : Source Apdu) : list Apdu :=
  match src with
  | [] => []
  | Raise _ :: _ => []
  | Yield (ApduEv a) :: rest => a :: arrived rest
  | Yield CardReset :: rest => arrived rest
  end.

(** The source raises at some read. *)
Definition source_raises (src : Source Apdu) (e : Exn) : Prop :=
  exists evs rest, src = map Yield evs ++ Raise e :: rest.

(** The filter of lines 110 to 113. *)
Definition filtered_out (sup_select sup_status : bool) (i : Inst) : bool :=
  (sup_select && bool_decide (inst_class i = UiccSelect))
  || (sup_status && bool_decide (inst_class i = UiccStatus)).

End Tracer.

Arguments Action : clear implicits.
Arguments Run : clear implicits.
Arguments Tracer : clear implicits.
Arguments Kwargs : clear implicits.

(** ** The command line *)

Module CommandLine.

(** A value of the parsed namespace: the parser declares no [type], so a
    value given on the command line is a string, while the default of
    [--bind-port] is the integer 4729. *)
Inductive PyVal :=
| PyStr (s : string)
| PyInt (z : Z).

(** The source chosen by the subcommand, with the options of its parser:
    [gsmtap-udp] ([bind_ip], [bind_port]), [rspro-pyshark-pcap]
    ([pcap_file]) and [rspro-pyshark-live] ([interface]). *)
Inductive SourceArgs :=
| GsmtapUdp (bind_ip : string) (bind_port : PyVal)
| RsproPysharkPcap (pcap_file : string)
| RsproPysharkLive (interface : string).

(** The namespace [parse_args] returns. *)
Record Opts := {
  opt_suppress_select : bool;
  opt_suppress_status : bool;
  opt_source : SourceArgs
}.

(** What an option does: print the help and exit, store [False] in its
    destination, or store the argument that follows it. *)
Inductive OptAction :=
| OHelp
| OStoreFalse (dest : string)
| OStore (dest : string).

Definition OptionTable := list (string * OptAction).

(** The options of the top-level parser (lines 117 to 124). *)
Definition option_parser : OptionTable :=
  [("-h", OHelp); ("--help", OHelp);
   ("--no-suppress-select", OStoreFalse "suppress_select");
   ("--no-suppress-status", OStoreFalse "suppress_status")].

(** The options of the three subparsers (lines 128 to 144). *)
Definition parser_gsmtap : OptionTable :=
  [("-h", OHelp); ("--help", OHelp);
   ("-i", OStore "bind_ip"); ("--bind-ip", OStore "bind_ip");
   ("-p", OStore "bind_port"); ("--bind-port", OStore "bind_port")].

Definition parser_rspro_pyshark_pcap : OptionTable :=
  [("-h", OHelp); ("--help", OHelp);
   ("-f", OStore "pcap_file"); ("--pcap-file", OStore "pcap_file")].

Definition parser_rspro_pyshark_live : OptionTable :=
  [("-h", OHelp); ("--help", OHelp);
   ("-i", OStore "interface"); ("--interface", OStore "interface")].

Definition subparsers (name : string) : option OptionTable :=
  if String.eqb name "gsmtap-udp" then Some parser_gsmtap
  else if String.eqb name "rspro-pyshark-pcap" then Some parser_rspro_pyshark_pcap
  else if String.eqb name "rspro-pyshark-live" then Some parser_rspro_pyshark_live
  else None.

Fixpoint contains (c : ascii) (s : string) : bool :=
  match s with
  | EmptyString => false
  | String c' s' => Ascii.eqb c c' || contains c s'
  end.

Definition is_letter (c : ascii) : bool :=
  let n := nat_of_ascii c in
  (Nat.leb 97 n && Nat.leb n 122) || (Nat.leb 65 n && Nat.leb n 90).

(** The spellings of a command-line string this model covers: a word that
    does not start with a dash; a dash and one letter; or two dashes and
    more, without [=] or a space.  Left out are [-] and [--] alone, several
    short options or a value glued to one ([-hx], [-i1]), negative numbers
    and options written with [=]. *)
Definition covered_spelling (s : string) : bool :=
  if negb (String.prefix "-" s) then true
  else
    match s with
    | String _ (String c EmptyString) => is_letter c
    | _ =>
        String.prefix "--" s && Nat.ltb 2 (String.length s)
        && negb (contains "=" s) && negb (contains " " s)
    end.

(** How argparse sees one string: a positional argument, an option (the
    action it selects, or none if no option has that name), or an
    abbreviation of several options. *)
Inductive ArgClass :=
| Positional
| Optional (a : option OptAction)
| Ambiguous.

(** An option is selected by its exact name, or, for a string that starts
    with two dashes, by a prefix that only one option name has. *)
Definition classify (t : OptionTable) (s : string) : ArgClass :=
  if negb (String.prefix "-" s) then Positional
  else
    match find (fun oa => String.eqb oa.1 s) t with
    | Some (_, a) => Optional (Some a)
    | None =>
        if Nat.eqb (String.length s) 2 then Optional None
        else
          match filter (fun oa => String.prefix s oa.1 = true) t with
          | [] => Optional None
          | [(_, a)] => Optional (Some a)
          | _ => Ambiguous
          end
    end.

Definition is_ambiguous (t : OptionTable) (s : string) : bool :=
  match classify t s with Ambiguous => true | _ => false end.

Definition asks_help (s : string) : bool :=
  match classify option_parser s with Optional (Some OHelp) => true | _ => false end.

(** How [parse_args] ends: it returns the namespace, or the parser exits
    (status 0 after the help, 2 after an error). *)
Inductive Parse :=
| Parsed (o : Opts)
| Exit (status : nat).

(** The strings after the subcommand, read by its parser: the values
    stored so far (the last one given first), whether a string was left
    unrecognised, and the destination of an option still waiting for its
    argument. *)
Fixpoint parse_sub (t : OptionTable) (vals : list (string * string))
    (extras : bool) (waiting : option string) (args : list string)
  : nat + (list (string * string) * bool) :=
  match args with
  | [] =>
      match waiting with
      | Some _ => inl 2
      | None => inr (vals, extras)
      end
  | s :: rest =>
      match waiting, classify t s with
      | Some d, Positional => parse_sub t ((d, s) :: vals) extras None rest
      | Some _, _ => inl 2
      | None, Positional => parse_sub t vals true None rest
      | None, Optional None => parse_sub t vals true None rest
      | None, Optional (Some OHelp) => inl 0
      | None, Optional (Some (OStore d)) => parse_sub t vals extras (Some d) rest
      | None, Optional (Some (OStoreFalse _)) => parse_sub t vals extras None rest
      | None, Ambiguous => inl 2
      end
  end.

Definition stored (vals : list (string * string)) (dest : string) : option string :=
  snd <$> find (fun dv => String.eqb dv.1 dest) vals.

(** The source arguments of a subcommand from the values stored: the
    defaults of [gsmtap-udp], the required options of the other two. *)
Definition source_args (name : string) (vals : list (string * string))
  : option SourceArgs :=
  if String.eqb name "gsmtap-udp" then
    Some (GsmtapUdp (default "127.0.0.1" (stored vals "bind_ip"))
            (from_option PyStr (PyInt 4729) (stored vals "bind_port")))
  else if String.eqb name "rspro-pyshark-pcap" then
    RsproPysharkPcap <$> stored vals "pcap_file"
  else if String.eqb name "rspro-pyshark-live" then
    RsproPysharkLive <$> stored vals "interface"
  else None.

(** The strings up to the subcommand, read by the top-level parser, and
    the hand-over to the parser of the subcommand. *)
Fixpoint parse_global (sel sta extras : bool) (argv : list string) : Parse :=
  match argv with
  | [] => Exit 2
  | s :: rest =>
      match classify option_parser s with
      | Ambiguous => Exit 2
      | Optional (Some OHelp) => Exit 0
      | Optional (Some (OStoreFalse d)) =>
          if String.eqb d "suppress_select" then parse_global false sta extras rest
          else parse_global sel false extras rest
      | Optional (Some (OStore _)) => parse_global sel sta extras rest
      | Optional None => parse_global sel sta true rest
      | Positional =>
          match subparsers s with
          | None => Exit 2
          | Some t =>
              if existsb (is_ambiguous t) rest then Exit 2
              else
                match parse_sub t [] extras None rest with
                | inl status => Exit status
                | inr (vals, extras') =>
                    match source_args s vals with
                    | None => Exit 2
                    | Some src =>
                        if extras' then Exit 2
                        else Parsed {| opt_suppress_select := sel;
                                       opt_suppress_status := sta;
                                       opt_source := src |}
                    end
                end
          end
      end
  end.

(** [option_parser.parse_args()] on the arguments of the command line.
    [None]: the command line is outside what this model covers, a spelling
    left out above, or a request for help next to an ambiguous abbreviation
    (which of the two argparse reports depends on its version). *)
Definition parse_args (argv : list string) : option Parse :=
  if negb (forallb covered_spelling argv) then None
  else if existsb asks_help argv
          && existsb (fun s => is_ambiguous option_parser s || is_ambiguous parser_gsmtap s) argv
  then None
  else if existsb (is_ambiguous option_parser) argv then Some (Exit 2)
  else Some (parse_global true true false argv).

End CommandLine.

(** How a run of the script ends (lines 146 to 160): the argument parser
    exits, opening the source raises, or the tracer is built and [main]
    runs. *)
Inductive ScriptEnd (Apdu Inst RS : Type) :=
| ParserExit (status : nat)
| OpenFailed (e : Exn)
| Traced (r : Run Apdu Inst RS).
Arguments ParserExit {Apdu Inst RS} status.
Arguments OpenFailed {Apdu Inst RS} e.
Arguments Traced {Apdu Inst RS} r.

(** The script: the options are parsed, the source of the subcommand is
    opened ([open_source] stands for the three source classes), and the
    tracer is built with the source and the two toggles of the namespace.
    [None] where the command line is outside the model of [parse_args]. *)
Definition script {Apdu Inst RS : Type} `{TraceIface Apdu Inst RS}
    (open_source : CommandLine.SourceArgs -> Result (Source Apdu))
    (rs0 : RS) (argv : list string) : option (ScriptEnd Apdu Inst RS) :=
  match CommandLine.parse_args argv with
  | None => None
  | Some (CommandLine.Exit status) => Some (ParserExit status)
  | Some (CommandLine.Parsed opts) =>
      match open_source (CommandLine.opt_source opts) with
      | Err e => Some (OpenFailed e)
      | Ok s =>
          Some (Traced (main (Tracer_init rs0
            {| kw_suppress_status := Some (CommandLine.opt_suppress_status opts);
               kw_suppress_select := Some (CommandLine.opt_suppress_select opts);
               kw_source := Some s |})))
      end
  end.

(** ** The dummy card link *)

Module DummySimLink.

(** The ATR the link claims, [h2i('3B9F96801F878031E073FE211B674A4C753034054BA9')]. *)
Definition _atr : list Z :=
  [0x3B; 0x9F; 0x96; 0x80; 0x1F; 0x87; 0x80; 0x31; 0xE0; 0x73; 0xFE; 0x21;
   0x1B; 0x67; 0x4A; 0x4C; 0x75; 0x30; 0x34; 0x05; 0x4B; 0xA9]%Z.

(** [_send_apdu_raw]: every command is dropped and answered with no data
    and the status word 9000. *)
Definition _send_apdu_raw (pdu : string) : list Z * string := ([], "9000").

Definition reset_card : Z := 1%Z.

Definition get_atr : list Z := _atr.

End DummySimLink.

(** ** Raw exchanges *)

(** Modelled from the spec: the RawExchange of pySim.apdu (class byte,
    instruction byte, P1, P2, optional command data, optional response with
    its data and two-byte status word).  Bytes are integers in 0..255, the
    status word an integer in 0..65535. *)
Record Apdu := {
  cla : Z;
  ins : Z;
  p1 : Z;
  p2 : Z;
  cmd_data : list Z;
  rsp : option (list Z * Z)
}.

(** ** The card model *)

Module CardModel.

(** Modelled from the spec: the identifier of a node of the card model tree
    of pySim.filesystem, the bytes a selection command names it by. *)
Definition Ident := list Z.

(** Modelled from the spec: a node of the tree is a file or an
    application. *)
Inductive NodeKind := File | Application.

(** Modelled from the spec: the rooted tree of file and application nodes of
    pySim.filesystem; a node has an identifier, a display name and its
    children, so every node but the root has exactly one parent. *)
#[local] Unset Elimination Schemes.
Inductive Node :=
| MkNode (ident : Ident) (name : string) (kind : NodeKind) (children : list Node).
#[local] Set Elimination Schemes.

Definition ident (n : Node) : Ident := match n with MkNode i _ _ _ => i end.
Definition name (n : Node) : string := match n with MkNode _ s _ _ => s end.
Definition kind (n : Node) : NodeKind := match n with MkNode _ _ k _ => k end.
Definition children (n : Node) : list Node := match n with MkNode _ _ _ c => c end.

(** Modelled from the spec: the per-channel cursor of RuntimeState, the
    recorded path from the root to the selected node and the active
    application context. *)
Record Cursor := {
  c_path : list Ident;
  c_app : option Ident
}.

Definition root_cursor : Cursor := {| c_path := []; c_app := None |}.

(** Modelled from the spec: the RuntimeState of pySim.filesystem, the static
    tree and one cursor per logical channel; a channel without an entry has
    never selected anything and stands at the root. *)
Record RuntimeState := {
  tree : Node;
  cursors : gmap nat Cursor
}.

(** Modelled from the spec: the state RuntimeState(card, profile) starts
    in, every cursor at the root of the profile's tree. *)
Definition init (profile : Node) : RuntimeState :=
  {| tree := profile; cursors := ∅ |}.

Definition cursor (st : RuntimeState) (ch : nat) : Cursor :=
  default root_cursor (cursors st !! ch).

Definition find_child (n : Node) (i : Ident) : option Node :=
  find (fun c => bool_decide (ident c = i)) (children n).

(** The node a path of identifiers leads to from [n], if each step names an
    existing child. *)
Fixpoint resolve (n : Node) (p : list Ident) : option Node :=
  match p with
  | [] => Some n
  | i :: p' =>
      match find_child n i with
      | Some c => resolve c p'
      | None => None
      end
  end.

(** Modelled from the spec: currentNode(channel) of RuntimeState. *)
Definition currentNode (st : RuntimeState) (ch : nat) : Node :=
  default (tree st) (resolve (tree st) (c_path (cursor st ch))).

(** Modelled from the spec: applicationContext(channel) of RuntimeState. *)
Definition applicationContext (st : RuntimeState) (ch : nat) : option Ident :=
  c_app (cursor st ch).

(** Modelled from the spec: RuntimeState.reset, which collapses the cursor
    of every channel back to the root. *)
Definition reset (st : RuntimeState) : RuntimeState :=
  {| tree := tree st; cursors := (fun _ => root_cursor) <$> cursors st |}.

(** The cursor after a successful selection of node [n] reached by path
    [p]: an application node becomes the active application context. *)
Definition moved (c : Cursor) (p : list Ident) (n : Node) : Cursor :=
  {| c_path := p;
     c_app := match kind n with Application => Some (ident n) | File => c_app c end |}.

Definition set_cursor (st : RuntimeState) (ch : nat) (c : Cursor) : RuntimeState :=
  {| tree := tree st; cursors := <[ch := c]> (cursors st) |}.

(** Modelled from the spec: selectChild(channel, identifier) of
    RuntimeState; [None] is NotFound and leaves the state as it was. *)
Definition selectChild (st : RuntimeState) (ch : nat) (i : Ident)
  : option (Node * RuntimeState) :=
  let c := cursor st ch in
  match find_child (currentNode st ch) i with
  | Some n => Some (n, set_cursor st ch (moved c (c_path c ++ [i]) n))
  | None => None
  end.

(** Modelled from the spec: selectAbsolute(channel, path) of RuntimeState;
    the path descends from the root, [None] is NotFound. *)
Definition selectAbsolute (st : RuntimeState) (ch : nat) (p : list Ident)
  : option (Node * RuntimeState) :=
  match resolve (tree st) p with
  | Some n => Some (n, set_cursor st ch (moved (cursor st ch) p n))
  | None => None
  end.

(** The names of the nodes along a path, the root first. *)
Fixpoint path_names (n : Node) (p : list Ident) : list string :=
  name n ::
  match p with
  | [] => []
  | i :: p' =>
      match find_child n i with
      | Some c => path_names c p'
      | None => []
      end
  end.

(** The location of a channel's cursor as text, as in [MF/DF_TELECOM]. *)
Definition path_string (st : RuntimeState) (ch : nat) : string :=
  String.concat "/" (path_names (tree st) (c_path (cursor st ch))).

(** What a selection resolved to, as channel [ch] sees it: the node found
    and the cursor the channel is left with. *)
Definition resolution (ch : nat) (o : option (Node * RuntimeState))
  : option (Node * Cursor) :=
  (fun '(n, s) => (n, cursor s ch)) <$> o.

(** The cursor of every channel names an existing node. *)
Definition wf (st : RuntimeState) : Prop :=
  forall ch c, cursors st !! ch = Some c -> is_Some (resolve (tree st) (c_path c)).

End CardModel.

(** ** Command interpreters and the registry *)

Module Commands.
Import CardModel.

(** Modelled from the spec: how a selection command addresses its target,
    a child of the current node or a path from the root. *)
Inductive Target :=
| Child (i : Ident)
| Absolute (p : list Ident).

(** Modelled from the spec: the variants of the command interpreter family
    of pySim.apdu: selection, status, any other known command (given by the
    effect it has on the runtime state and the text it reports), and the
    catch-all for commands the registry does not know. *)
Inductive Variant :=
| VSelect
| VStatus
| VOther (effect : Apdu -> RuntimeState -> RuntimeState * string)
| VUnknown.

(** Modelled from the spec: the CommandKey, the pair of the masked class
    value and the instruction byte. *)
Definition CommandKey := (Z * Z)%type.

(** Modelled from the spec: the CommandDescriptor, the display name, the
    optional class-byte mask and the interpreter variant it constructs. *)
Record CommandDescriptor := {
  d_name : string;
  d_cla_mask : option Z;
  d_variant : Variant
}.

(** Modelled from the spec: the command registry (the ApduCommandSet of
    pySim.apdu), the registered entries in registration order. *)
Definition Registry := list (CommandKey * CommandDescriptor).

(** The class byte as an entry compares it: masked when the descriptor
    specifies a mask. *)
Definition masked (d : CommandDescriptor) (c : Z) : Z :=
  match d_cla_mask d with
  | Some m => Z.land c m
  | None => c
  end.

Definition matches (k : CommandKey) (d : CommandDescriptor) (c i : Z) : bool :=
  bool_decide (masked d c = k.1) && bool_decide (i = k.2).

(** Modelled from the spec: register(commandKey, descriptor). *)
Definition register (k : CommandKey) (d : CommandDescriptor) (r : Registry)
  : Registry :=
  r ++ [(k, d)].

(** Modelled from the spec: merge(otherRegistry), the [+] of two command
    sets: the entries of the right operand are registered after those of the
    left one. *)
Definition merge (r other : Registry) : Registry := r ++ other.

(** Modelled from the spec: lookup(classByte, instructionByte); among the
    entries that match, the one registered last is returned. *)
Fixpoint lookup (r : Registry) (c i : Z) : option CommandDescriptor :=
  match r with
  | [] => None
  | (k, d) :: r' =>
      match lookup r' c i with
      | Some d' => Some d'
      | None => if matches k d c i then Some d else None
      end
  end.

(** The lookup of a command key. *)
Definition lookup_key (r : Registry) (k : CommandKey) : option CommandDescriptor :=
  lookup r k.1 k.2.

(** Line 34 of the script: the global command set. *)
Definition ApduCommands (SimApduCommands UiccApduCommands UsimApduCommands : Registry)
  : Registry :=
  merge (merge SimApduCommands UiccApduCommands) UsimApduCommands.

(** Modelled from the spec: the field-parsing step of the interpreters of
    pySim.apdu, as far as the records need it: the logical channel of an
    exchange, the target of a selection, and the two columns of the compact
    display. *)
Class FieldParser := {
  lchan_of : Apdu -> nat;
  target_of : Apdu -> Target;
  col_id_of : Apdu -> string;
  col_sw_of : Apdu -> string
}.

(** Modelled from the spec: a command interpreter of pySim.apdu, built for
    one exchange. *)
Record Interp := {
  i_lchan : nat;
  i_apdu : Apdu;
  i_name : string;
  i_path_str : string;
  i_col_id : string;
  i_col_sw : string;
  i_processed : string;
  i_variant : Variant
}.

Definition unrecognized : string := "unrecognized command".
Definition select_failed : string := "select failed: no such file or application".
Definition select_ok (path : string) : string := "selected " +:+ path.
Definition status_text (path : string) : string := "current " +:+ path.

Section Decoder.
Context `{FieldParser}.

(** Modelled from the spec: decode of the ApduDecoder of pySim.apdu
    ([ApduDecoder.input]): the registry is looked up by class and
    instruction; without a match the unknown interpreter is returned. *)
Definition decode (r : Registry) (a : Apdu) : Interp :=
  match lookup r (cla a) (ins a) with
  | Some d =>
      {| i_lchan := lchan_of a; i_apdu := a; i_name := d_name d;
         i_path_str := ""; i_col_id := col_id_of a; i_col_sw := col_sw_of a;
         i_processed := ""; i_variant := d_variant d |}
  | None =>
      {| i_lchan := lchan_of a; i_apdu := a; i_name := "UNKNOWN";
         i_path_str := ""; i_col_id := col_id_of a; i_col_sw := col_sw_of a;
         i_processed := unrecognized; i_variant := VUnknown |}
  end.

Definition select (st : RuntimeState) (ch : nat) (t : Target)
  : option (Node * RuntimeState) :=
  match t with
  | Child i => selectChild st ch i
  | Absolute p => selectAbsolute st ch p
  end.

(** The target of a selection does not exist: no such child under the
    current node, or no node at the absolute path. *)
Definition target_missing (st : RuntimeState) (ch : nat) (t : Target) : Prop :=
  match t with
  | Child i => find_child (currentNode st ch) i = None
  | Absolute p => resolve (tree st) p = None
  end.

Definition with_result (i : Interp) (path text : string) : Interp :=
  {| i_lchan := i_lchan i; i_apdu := i_apdu i; i_name := i_name i;
     i_path_str := path; i_col_id := i_col_id i; i_col_sw := i_col_sw i;
     i_processed := text; i_variant := i_variant i |}.

(** Modelled from the spec: process(runtimeState) of the interpreters of
    pySim.apdu.  A selection moves the cursor on success and leaves it on
    failure, reporting either in the processed text; a status command renders
    the cursor; the unknown interpreter changes nothing. *)
Definition process (i : Interp) (st : RuntimeState) : Interp * RuntimeState :=
  let ch := i_lchan i in
  match i_variant i with
  | VSelect =>
      match select st ch (target_of (i_apdu i)) with
      | Some (_, st') =>
          (with_result i (path_string st' ch) (select_ok (path_string st' ch)), st')
      | None => (with_result i (path_string st ch) select_failed, st)
      end
  | VStatus => (with_result i (path_string st ch) (status_text (path_string st ch)), st)
  | VOther effect =>
      let (st', text) := effect (i_apdu i) st in
      (with_result i (path_string st' ch) text, st')
  | VUnknown => (with_result i (path_string st ch) (i_processed i), st)
  end.

Definition class_of (i : Interp) : ApduClass :=
  match i_variant i with
  | VSelect => UiccSelect
  | VStatus => UiccStatus
  | VOther _ | VUnknown => ApduCommand
  end.

(** The loop's collaborators as the specification describes them, for the
    decoder [ApduDecoder(r)]. *)
Definition spec_iface (r : Registry) : TraceIface Apdu Interp RuntimeState :=
  {| ad_input := fun a => Ok (decode r a);
     inst_process := fun i st => Ok (process i st);
     rs_reset := fun st => Ok (reset st);
     inst_class := class_of;
     lchan_nr := i_lchan;
     inst_name := i_name;
     path_str := i_path_str;
     col_id := i_col_id;
     col_sw := i_col_sw;
     processed := i_processed |}.

End Decoder.

End Commands.

(** ** Shapes of runs *)

(** The exit status of the script when [tracer.main()] ends: an exception
    that leaves [main] is not caught anywhere and ends the process with a
    traceback and status 1. *)
Definition exit_status (o : Outcome) : option nat :=
  match o with
  | Returned => Some 0
  | Raised _ _ => Some 1
  | Running => None
  end.

Section Shapes.
Context {Apdu Inst RS : Type} `{TraceIface Apdu Inst RS}.

Implicit Types (st : RS) (ev : Event Apdu).

(** The body of the loop, case by case. *)
Inductive body_spec (ss sst : bool) st ev
  : list (Action Apdu Inst) * (Site * Exn + RS) -> Prop :=
| body_reset_ok st' :
    ev = CardReset -> rs_reset st = Ok st' ->
    body_spec ss sst st ev ([AReset], inr st')
| body_reset_err e :
    ev = CardReset -> rs_reset st = Err e ->
    body_spec ss sst st ev ([AReset], inl (AtReset, e))
| body_input_err a e :
    ev = ApduEv a -> ad_input a = Err e ->
    body_spec ss sst st ev ([AInput a], inl (AtInput, e))
| body_process_err a i e :
    ev = ApduEv a -> ad_input a = Ok i -> inst_process i st = Err e ->
    body_spec ss sst st ev ([AInput a; AProcess i], inl (AtProcess, e))
| body_suppress a i i' st' :
    ev = ApduEv a -> ad_input a = Ok i -> inst_process i st = Ok (i', st') ->
    filtered_out ss sst i' = true ->
    body_spec ss sst st ev ([AInput a; AProcess i; ASuppress i'], inr st')
| body_print a i i' st' :
    ev = ApduEv a -> ad_input a = Ok i -> inst_process i st = Ok (i', st') ->
    filtered_out ss sst i' = false ->
    body_spec ss sst st ev ([AInput a; AProcess i; APrint i'], inr st').

(** [i'] is the record of exchange [a]: the command the decoder built for
    [a], after its [process]. *)
Definition record_of (a : Apdu) (i' : Inst) : Prop :=
  exists i st st', ad_input a = Ok i /\ inst_process i st = Ok (i', st').

(** A log made of whole iterations, one after the other: one read, then
    either the reset, or the decoding, the processing and the emission (or
    suppression) of one exchange; the last iteration may stop at the read,
    or at the call that raised. *)
Inductive sequential : list (Action Apdu Inst) -> Prop :=
| seq_read : sequential [ARead]
| seq_stop_reset : sequential [ARead; AReset]
| seq_stop_input a : sequential [ARead; AInput a]
| seq_stop_process a i :
    ad_input a = Ok i -> sequential [ARead; AInput a; AProcess i]
| seq_reset l : sequential l -> sequential (ARead :: AReset :: l)
| seq_print a i i' st st' l :
    ad_input a = Ok i -> inst_process i st = Ok (i', st') -> sequential l ->
    sequential (ARead :: AInput a :: AProcess i :: APrint i' :: l)
| seq_suppress a i i' st st' l :
    ad_input a = Ok i -> inst_process i st = Ok (i', st') -> sequential l ->
    sequential (ARead :: AInput a :: AProcess i :: ASuppress i' :: l).

End Shapes.

(** ** A sample card, parser and command sets *)

Module Sample.
Import CardModel Commands.
#[local] Open Scope Z_scope.

Definition EF_ADN : Node := MkNode [0x6F; 0x3A] "EF_ADN" File [].
Definition DF_TELECOM : Node := MkNode [0x7F; 0x10] "DF_TELECOM" File [EF_ADN].
Definition DF_GSM : Node := MkNode [0x7F; 0x20] "DF_GSM" File [].
Definition ADF_USIM : Node := MkNode [0xA0; 0x00; 0x00; 0x00; 0x87] "ADF_USIM" Application [].
Definition MF : Node := MkNode [0x3F; 0x00] "MF" File [DF_TELECOM; DF_GSM; ADF_USIM].

(** A tree with nothing but its root. *)
Definition MF_only : Node := MkNode [0x3F; 0x00] "MF" File [].

Fixpoint pairs (l : list Z) : list Ident :=
  match l with
  | a :: b :: r => [a; b] :: pairs r
  | _ => []
  end.

(** A parser in the style of the UICC commands: the channel in the two low
    bits of the class byte; P1 = 8 selects by path from the root, the
    identifier 3F00 names the root itself, anything else a child. *)
Definition parser : FieldParser :=
  {| lchan_of := fun a => Z.to_nat (Z.land (cla a) 3);
     target_of := fun a =>
       if bool_decide (p1 a = 8) then Absolute (pairs (cmd_data a))
       else if bool_decide (cmd_data a = [0x3F; 0x00]) then Absolute []
       else Child (cmd_data a);
     col_id_of := fun _ => "-";
     col_sw_of := fun a =>
       match rsp a with
       | Some (_, sw) => if bool_decide (sw = 0x9000) then "9000" else "fail"
       | None => "-"
       end |}.

Definition sim_select : CommandDescriptor :=
  {| d_name := "SELECT (SIM)"; d_cla_mask := None; d_variant := VSelect |}.
Definition sim_status : CommandDescriptor :=
  {| d_name := "STATUS (SIM)"; d_cla_mask := None; d_variant := VStatus |}.
Definition uicc_select : CommandDescriptor :=
  {| d_name := "SELECT"; d_cla_mask := Some 0xFC; d_variant := VSelect |}.
Definition uicc_status : CommandDescriptor :=
  {| d_name := "STATUS"; d_cla_mask := Some 0xFC; d_variant := VStatus |}.
Definition usim_authenticate : CommandDescriptor :=
  {| d_name := "AUTHENTICATE"; d_cla_mask := Some 0xFC;
     d_variant := VOther (fun _ st => (st, "authentication")) |}.
(** A second descriptor for the key of [uicc_select]. *)
Definition usim_select : CommandDescriptor :=
  {| d_name := "SELECT (USIM)"; d_cla_mask := Some 0xFC; d_variant := VSelect |}.

Definition SimApduCommands : Registry :=
  [((0xA0, 0xA4), sim_select); ((0xA0, 0xF2), sim_status)].
Definition UiccApduCommands : Registry :=
  [((0x00, 0xA4), uicc_select); ((0x80, 0xF2), uicc_status)].
Definition UsimApduCommands : Registry :=
  [((0x00, 0x88), usim_authenticate); ((0x00, 0xA4), usim_select)].

Definition commands : Registry :=
  ApduCommands SimApduCommands UiccApduCommands UsimApduCommands.

Definition apdu (c i p : Z) (d : list Z) : Apdu :=
  {| cla := c; ins := i; p1 := p; p2 := 0; cmd_data := d;
     rsp := Some ([], 0x9000) |}.

Definition select_MF : Apdu := apdu 0x00 0xA4 0 [0x3F; 0x00].
Definition select_TELECOM : Apdu := apdu 0x00 0xA4 0 [0x7F; 0x10].
Definition select_NONEXISTENT : Apdu := apdu 0x00 0xA4 0 [0xDE; 0xAD].
Definition status : Apdu := apdu 0x80 0xF2 0 [].
Definition vendor : Apdu := apdu 0x80 0xCA 0 [].

(** The collaborators of the loop for the sample parser and command sets. *)
Definition iface : TraceIface Apdu Interp RuntimeState :=
  @spec_iface parser commands.

(** Reset, SELECT MF, SELECT DF_TELECOM, STATUS. *)
Definition scenario : Source Apdu :=
  [Yield CardReset; Yield (ApduEv select_MF); Yield (ApduEv select_TELECOM);
   Yield (ApduEv status)].

(** A decoder that raises on a class and instruction no command set knows,
    where [iface] returns the unknown interpreter; the other collaborators
    are those of [iface]. *)
Definition strict_input (a : Apdu) : Result Interp :=
  match lookup commands (cla a) (ins a) with
  | Some _ => Ok (@decode parser commands a)
  | None => Err (ValueError "Unknown INS")
  end.

Definition strict_iface : TraceIface Apdu Interp RuntimeState :=
  {| ad_input := strict_input;
     inst_process := fun i st => Ok (@process parser i st);
     rs_reset := fun st => Ok (reset st);
     inst_class := class_of;
     lchan_nr := i_lchan;
     inst_name := i_name;
     path_str := i_path_str;
     col_id := i_col_id;
     col_sw := i_col_sw;
     processed := i_processed |}.

(** A capture that holds the scenario, whatever source is opened. *)
Definition open_scenario (args : CommandLine.SourceArgs) : Result (Source Apdu) :=
  Ok scenario.

End Sample.

(** ** Accounting of a run *)

Section Accounting.
Context {Apdu Inst RS : Type} `{TraceIface Apdu Inst RS}.

(** The number of calls of [source.read()]. *)
Definition reads (l : list (Action Apdu Inst)) : nat :=
  length (omap (fun a => match a with ARead => Some tt | _ => None end) l).

End Accounting.

(** The reads of a run that handed no event to the loop body: the read a
    running loop is blocked in, or the read that raised. *)
Definition pending_read (o : Outcome) : nat :=
  match o with
  | Running | Raised AtRead _ => 1
  | Raised _ _ | Returned => 0
  end.

(** ** Text written to standard output *)

(** The newline character that [print] appends. *)
Definition newline : ascii := "010"%char.

(** The characters written by successive [print] calls: each argument,
    followed by a newline. *)
Fixpoint written (prints : list string) : string :=
  match prints with
  | [] => ""
  | s :: rest => s +:+ String newline (written rest)
  end.

(** The number of newline characters of a text, that is the number of
    lines of a text that ends with one. *)
Fixpoint newlines (s : string) : nat :=
  match s with
  | EmptyString => 0
  | String c s' => (if Ascii.eqb c newline then 1 else 0) + newlines s'
  end.

(** ** One exchange at a time *)

Section Arrival.
Context {Apdu Inst RS : Type} `{TraceIface Apdu Inst RS}.

(** The newline characters in the text fields of a decoded command. *)
Definition field_newlines (inst : Inst) : nat :=
  newlines (inst_name inst) + newlines (path_str inst) + newlines (col_id inst)
  + newlines (col_sw inst) + newlines (processed inst).

(** The events a source delivers before its first raising read. *)
Fixpoint delivered (src : Source Apdu) : list (Event Apdu) :=
  match src with
  | Yield ev :: rest => ev :: delivered rest
  | _ => []
  end.

(** Where the reads of a source leave a loop that handled all its events:
    blocked in the read after the last event, or at the read that raised. *)
Fixpoint read_end (src : Source Apdu) : Outcome :=
  match src with
  | [] => Running
  | Raise e :: _ => Raised AtRead e
  | Yield _ :: rest => read_end rest
  end.

(** Following the specification (sections 5 and 8: one control flow
    decodes and processes the exchanges in strict arrival order, each
    applied to the state its predecessors left): the exchanges of a list of
    events paired with their records, each decoded and then processed in the
    runtime state reached so far, up to the first call that raises; and the
    runtime state reached, or the call that raised and its exception. *)
Fixpoint one_at_a_time (st : RS) (evs : list (Event Apdu))
  : list (Apdu * Inst) * (Site * Exn + RS) :=
  match evs with
  | [] => ([], inr st)
  | CardReset :: rest =>
      match rs_reset st with
      | Err e => ([], inl (AtReset, e))
      | Ok st' => one_at_a_time st' rest
      end
  | ApduEv a :: rest =>
      match ad_input a with
      | Err e => ([], inl (AtInput, e))
      | Ok i =>
          match inst_process i st with
          | Err e => ([], inl (AtProcess, e))
          | Ok (i', st') =>
              let (pairs, res) := one_at_a_time st' rest in
              ((a, i') :: pairs, res)
          end
      end
  end.

End Arrival.

(** * Properties of the trace loop *)

Section LoopFacts.
Context {Apdu Inst RS : Type} `{TraceIface Apdu Inst RS}.

Implicit Types (st : RS) (src : Source Apdu) (ev : Event Apdu) (l : list (Action Apdu Inst)).

Lemma records_app l1 l2 : records (l1 ++ l2) = records l1 ++ records l2.
Proof. apply omap_app. Qed.

Lemma printed_app l1 l2 : printed (l1 ++ l2) = printed l1 ++ printed l2.
Proof. apply omap_app. Qed.

Lemma suppressed_app l1 l2 : suppressed (l1 ++ l2) = suppressed l1 ++ suppressed l2.
Proof. apply omap_app. Qed.

Lemma inputs_app l1 l2 : inputs (l1 ++ l2) = inputs l1 ++ inputs l2.
Proof. apply omap_app. Qed.

Lemma processes_app l1 l2 : processes (l1 ++ l2) = processes l1 ++ processes l2.
Proof. apply omap_app. Qed.

Lemma stdout_app l1 l2 : stdout (l1 ++ l2) = stdout l1 ++ stdout l2.
Proof. unfold stdout. by rewrite flat_map_app. Qed.

Lemma stdout_printed l : stdout l = flat_map format_capdu (printed l).
Proof.
  induction l as [|a l IH]; [done|].
  destruct a; simpl; try done. by rewrite IH.
Qed.

Lemma loop_body_spec ss sst st ev : body_spec ss sst st ev (loop_body ss sst st ev).
Proof.
  destruct ev as [a|]; simpl.
  - destruct (ad_input a) as [i|e] eqn:Hi; [|by eapply body_input_err].
    destruct (inst_process i st) as [[i' st']|e] eqn:Hp;
      [|by eapply body_process_err].
    destruct (ss && bool_decide (inst_class i' = UiccSelect)) eqn:H1.
    { eapply body_suppress; eauto. unfold filtered_out. by rewrite H1. }
    destruct (sst && bool_decide (inst_class i' = UiccStatus)) eqn:H2.
    { eapply body_suppress; eauto. unfold filtered_out. by rewrite H1, H2. }
    eapply body_print; eauto. unfold filtered_out. by rewrite H1, H2.
  - destruct (rs_reset st) as [st'|e] eqn:Hr.
    + by eapply body_reset_ok.
    + by eapply body_reset_err.
Qed.

(** The runtime state and the exception an iteration ends with do not depend
    on the suppression toggles. *)
Lemma loop_body_result ss1 sst1 ss2 sst2 st ev :
  (loop_body ss1 sst1 st ev).2 = (loop_body ss2 sst2 st ev).2.
Proof.
  destruct ev as [a|]; simpl.
  - destruct (ad_input a) as [i|e]; [|done].
    destruct (inst_process i st) as [[i' st']|e]; [|done].
    by repeat case_match.
  - by destruct (rs_reset st).
Qed.

Lemma loop_body_calls ss1 sst1 ss2 sst2 st ev :
  let l1 := (loop_body ss1 sst1 st ev).1 in
  let l2 := (loop_body ss2 sst2 st ev).1 in
  inputs l1 = inputs l2 /\ processes l1 = processes l2 /\ records l1 = records l2
  /\ resets l1 = resets l2.
Proof.
  destruct ev as [a|]; simpl.
  - destruct (ad_input a) as [i|e]; [|done].
    destruct (inst_process i st) as [[i' st']|e]; [|done].
    by repeat case_match.
  - by destruct (rs_reset st).
Qed.

Lemma main_loop_yield ss sst st ev rest :
  main_loop ss sst st (Yield ev :: rest) =
  match loop_body ss sst st ev with
  | (acts, inl (site, e)) =>
      {| log := ARead :: acts; final_rs := st; outcome := Raised site e |}
  | (acts, inr st') => after (ARead :: acts) (main_loop ss sst st' rest)
  end.
Proof. done. Qed.

Lemma main_loop_independent ss1 sst1 ss2 sst2 st src :
  let r1 := main_loop ss1 sst1 st src in
  let r2 := main_loop ss2 sst2 st src in
  final_rs r1 = final_rs r2 /\ outcome r1 = outcome r2
  /\ inputs (log r1) = inputs (log r2)
  /\ processes (log r1) = processes (log r2)
  /\ records (log r1) = records (log r2).
Proof.
  revert st. induction src as [|[ev|e] rest IH]; intros st; [done| |done].
  cbv zeta. rewrite !main_loop_yield.
  pose proof (loop_body_result ss1 sst1 ss2 sst2 st ev) as Hres.
  pose proof (loop_body_calls ss1 sst1 ss2 sst2 st ev) as (Hi & Hp & Hr & _).
  destruct (loop_body ss1 sst1 st ev) as [l1 [[s1 e1]|st1]],
           (loop_body ss2 sst2 st ev) as [l2 [[s2 e2]|st2]];
    simpl in *; simplify_eq.
  - done.
  - destruct (IH st2) as (? & ? & Hi' & Hp' & Hr'). simpl.
    change (ARead :: ?l ++ ?k) with ((ARead :: l) ++ k).
    rewrite !inputs_app, !processes_app, !records_app.
    change (inputs (ARead :: ?l)) with (inputs l).
    change (processes (ARead :: ?l)) with (processes l).
    change (records (ARead :: ?l)) with (records l).
    repeat split; congruence.
Qed.

(** No run of the loop ends by returning. *)
Lemma main_loop_never_returns ss sst st src :
  outcome (main_loop ss sst st src) <> Returned.
Proof.
  revert st. induction src as [|[ev|e] rest IH]; intros st; [done| |done].
  rewrite main_loop_yield.
  destruct (loop_body ss sst st ev) as [l [[s e]|st']]; [done|]. apply IH.
Qed.

(** What is printed is what the filter lets through, in order. *)
Lemma main_loop_printed ss sst st src :
  let r := main_loop ss sst st src in
  printed (log r) = filter (fun i => filtered_out ss sst i = false) (records (log r))
  /\ suppressed (log r) = filter (fun i => filtered_out ss sst i = true) (records (log r)).
Proof.
  revert st. induction src as [|[ev|e] rest IH]; intros st; [done| |done].
  cbv zeta. rewrite main_loop_yield.
  destruct (loop_body_spec ss sst st ev) as [st'| |a e|a i e|a i i' st' ? ? ? Hf|a i i' st' ? ? ? Hf];
    try done; simpl; destruct (IH st') as [IH1 IH2].
  - done.
  - change (records (?a :: ?b :: ASuppress i' :: ?l)) with (i' :: records l).
    change (printed (?a :: ?b :: ASuppress i' :: ?l)) with (printed l).
    change (suppressed (?a :: ?b :: ASuppress i' :: ?l)) with (i' :: suppressed l).
    rewrite filter_cons_False by congruence.
    rewrite filter_cons_True by done. by rewrite IH1, IH2.
  - change (records (?a :: ?b :: APrint i' :: ?l)) with (i' :: records l).
    change (printed (?a :: ?b :: APrint i' :: ?l)) with (i' :: printed l).
    change (suppressed (?a :: ?b :: APrint i' :: ?l)) with (suppressed l).
    rewrite filter_cons_True by done.
    rewrite filter_cons_False by congruence. by rewrite IH1, IH2.
Qed.

End LoopFacts.

(** * The loop against the one-at-a-time reading of the specification *)

Section Refinement.
Context {Apdu Inst RS : Type} `{TraceIface Apdu Inst RS}.

Implicit Types (st : RS) (src : Source Apdu) (ev : Event Apdu) (l : list (Action Apdu Inst)).

Lemma log_after acts (r : Run Apdu Inst RS) : log (after acts r) = acts ++ log r.
Proof. done. Qed.

(** The records of a run are those of the events handled one at a time,
    and so are its runtime state and the way it stands. *)
Lemma main_loop_refines ss sst st src :
  let r := main_loop ss sst st src in
  let ref := one_at_a_time st (delivered src) in
  records (log r) = map snd ref.1
  /\ map fst ref.1 `prefix_of` arrived src
  /\ match ref.2 with
     | inr st' =>
         final_rs r = st' /\ outcome r = read_end src
         /\ map fst ref.1 = arrived src /\ inputs (log r) = arrived src
     | inl (site, e) => outcome r = Raised site e
     end.
Proof.
  cbv zeta. revert st. induction src as [|[ev|e] rest IH]; intros st.
  - simpl. split_and!; done.
  - rewrite main_loop_yield. simpl delivered.
    destruct (loop_body_spec ss sst st ev)
      as [st' ? Hr|e ? Hr|a e ? Hi|a i e ? Hi Hp|a i i' st' ? Hi Hp ?|a i i' st' ? Hi Hp ?];
      subst ev; simpl one_at_a_time; simpl arrived;
      rewrite ?Hr, ?Hi, ?Hp; simpl.
    + apply IH.
    + split_and!; [done|apply prefix_nil|done].
    + split_and!; [done|apply prefix_nil|done].
    + split_and!; [done|apply prefix_nil|done].
    + destruct (IH st') as (Hrec & Hpre & Hend).
      destruct (one_at_a_time st' (delivered rest)) as [ps res]. simpl in *.
      split_and!.
      * change (records (?x :: ?y :: ?z :: ASuppress i' :: ?k)) with (i' :: records k).
        by rewrite Hrec.
      * by apply prefix_cons.
      * destruct res as [[site e]|st'']; [done|].
        destruct Hend as (? & ? & ? & Hin). split_and!; try done; congruence.
    + destruct (IH st') as (Hrec & Hpre & Hend).
      destruct (one_at_a_time st' (delivered rest)) as [ps res]. simpl in *.
      split_and!.
      * change (records (?x :: ?y :: ?z :: APrint i' :: ?k)) with (i' :: records k).
        by rewrite Hrec.
      * by apply prefix_cons.
      * destruct res as [[site e]|st'']; [done|].
        destruct Hend as (? & ? & ? & Hin). split_and!; try done; congruence.
  - simpl. split_and!; done.
Qed.

(** Why a run stands as it does: a run is never over by a return; it is
    running when no read of the source raised, left at a read by the
    exception that read raised, and left at a call for an event by the
    exception that call raised. *)
Lemma main_loop_raise_cause ss sst st src :
  let r := main_loop ss sst st src in
  let n := length (records (log r)) in
  match outcome r with
  | Returned | Raised AtSource _ => False
  | Running => read_end src = Running /\ n = length (arrived src)
  | Raised AtRead e =>
      read_end src = Raised AtRead e /\ source_raises src e /\ n = length (arrived src)
  | Raised AtReset e => rs_reset (final_rs r) = Err e
  | Raised AtInput e => exists a, arrived src !! n = Some a /\ ad_input a = Err e
  | Raised AtProcess e =>
      exists a i, arrived src !! n = Some a /\ ad_input a = Ok i
                  /\ inst_process i (final_rs r) = Err e
  end.
Proof.
  cbv zeta. revert st. induction src as [|[ev|e] rest IH]; intros st.
  - done.
  - rewrite main_loop_yield.
    destruct (loop_body_spec ss sst st ev)
      as [st' ? Hr|e ? Hr|a e ? Hi|a i e ? Hi Hp|a i i' st' ? Hi Hp ?|a i i' st' ? Hi Hp ?];
      subst ev.
    + specialize (IH st'). simpl outcome. simpl final_rs. simpl arrived.
      rewrite log_after, records_app.
      change (records [ARead; AReset]) with (@nil Inst). simpl app.
      destruct (outcome (main_loop ss sst st' rest)) as [|[] e|]; try done.
      destruct IH as (? & (evs & rest' & ->) & ?). split_and!; try done.
      by exists (CardReset :: evs), rest'.
    + done.
    + simpl. by exists a.
    + simpl. by exists a, i.
    + specialize (IH st'). simpl outcome. simpl final_rs. simpl arrived.
      rewrite log_after, records_app.
      change (records [ARead; AInput a; AProcess i; ASuppress i']) with [i'].
      simpl app. simpl length.
      destruct (outcome (main_loop ss sst st' rest)) as [|[] e|]; try done.
      * destruct IH as (? & (evs & rest' & ->) & ?). split_and!; try done; [|lia].
        by exists (ApduEv a :: evs), rest'.
      * destruct IH. split; [done|lia].
    + specialize (IH st'). simpl outcome. simpl final_rs. simpl arrived.
      rewrite log_after, records_app.
      change (records [ARead; AInput a; AProcess i; APrint i']) with [i'].
      simpl app. simpl length.
      destruct (outcome (main_loop ss sst st' rest)) as [|[] e|]; try done.
      * destruct IH as (? & (evs & rest' & ->) & ?). split_and!; try done; [|lia].
        by exists (ApduEv a :: evs), rest'.
      * destruct IH. split; [done|lia].
  - simpl. split_and!; try done. by exists [], rest.
Qed.

(** A run on events that are handled without an exception, followed by
    more of the source: the loop goes on from the state reached. *)
Lemma main_loop_after_events ss sst st evs ps st1 tail :
  one_at_a_time st evs = (ps, inr st1) ->
  let r := main_loop ss sst st (map Yield evs ++ tail) in
  let r1 := main_loop ss sst st1 tail in
  records (log r) = map snd ps ++ records (log r1)
  /\ inputs (log r) = map fst ps ++ inputs (log r1)
  /\ final_rs r = final_rs r1
  /\ outcome r = outcome r1.
Proof.
  cbv zeta. revert st ps. induction evs as [|ev evs IH]; intros st ps Href.
  - simpl in Href. by simplify_eq.
  - simpl map. simpl app. rewrite main_loop_yield.
    destruct (loop_body_spec ss sst st ev)
      as [st' ? Hr|e ? Hr|a e ? Hi|a i e ? Hi Hp|a i i' st' ? Hi Hp ?|a i i' st' ? Hi Hp ?];
      subst ev; simpl in Href; rewrite ?Hr, ?Hi, ?Hp in Href; try done.
    + apply (IH st' ps Href).
    + destruct (one_at_a_time st' evs) as [ps' res] eqn:Hps. simplify_eq.
      destruct (IH st' ps' Hps) as (Hrec & Hin & ? & ?).
      rewrite log_after, records_app, inputs_app. simpl final_rs. simpl outcome.
      change (records [ARead; AInput a; AProcess i; ASuppress i']) with [i'].
      change (inputs [ARead; AInput a; AProcess i; ASuppress i']) with [a].
      simpl. by rewrite Hrec, Hin.
    + destruct (one_at_a_time st' evs) as [ps' res] eqn:Hps. simplify_eq.
      destruct (IH st' ps' Hps) as (Hrec & Hin & ? & ?).
      rewrite log_after, records_app, inputs_app. simpl final_rs. simpl outcome.
      change (records [ARead; AInput a; AProcess i; APrint i']) with [i'].
      change (inputs [ARead; AInput a; AProcess i; APrint i']) with [a].
      simpl. by rewrite Hrec, Hin.
Qed.

End Refinement.

Section LoopClaims.
Context {Apdu Inst RS : Type} `{TraceIface Apdu Inst RS}.

Implicit Types (st : RS) (src : Source Apdu) (ev : Event Apdu) (l : list (Action Apdu Inst)).

Lemma main_loop_sequential ss sst st src :
  sequential (log (main_loop ss sst st src)).
Proof.
  revert st. induction src as [|[ev|e] rest IH]; intros st; [constructor| |constructor].
  rewrite main_loop_yield.
  destruct (loop_body_spec ss sst st ev); simpl; econstructor; eauto.
Qed.

Lemma filter_Forall_iff {A} (P Q : A -> Prop)
    `{!forall x, Decision (P x)} `{!forall x, Decision (Q x)} (xs : list A) :
  Forall (fun x => P x <-> Q x) xs -> filter P xs = filter Q xs.
Proof.
  induction 1 as [|x xs Hx _ IH]; [done|].
  destruct (decide (P x)) as [HP|HP].
  - rewrite !filter_cons_True by tauto. by rewrite IH.
  - rewrite !filter_cons_False by tauto. done.
Qed.

Lemma filter_Forall_none {A} (P : A -> Prop) `{!forall x, Decision (P x)}
    (xs : list A) :
  Forall (fun x => ~ P x) xs -> filter P xs = [].
Proof.
  induction 1 as [|x xs Hx _ IH]; [done|]. by rewrite filter_cons_False.
Qed.

(** C2: the loop handles the exchanges one at a time and in arrival order.
    Its log is a sequence of whole iterations (one read, then the decoding,
    the processing and the emission of that one exchange, before the next
    read).  The records that reach the output filter are exactly the records
    of the delivered exchanges handled one at a time: the k-th record is the
    k-th exchange, decoded and then processed in the runtime state its
    predecessors left.  When no call raised, every delivered exchange was
    handed to the decoder and has its record, and the loop stands where the
    reads of the source leave it; a run lacks records only when it was left
    by the exception of the call that raised, which the last conjunct
    names. *)
Theorem records_in_arrival_order ss sst st src :
  let r := main_loop ss sst st src in
  let ref := one_at_a_time st (delivered src) in
  let n := length (records (log r)) in
  sequential (log r)
  /\ records (log r) = map snd ref.1
  /\ map fst ref.1 `prefix_of` arrived src
  /\ inputs (log r) `prefix_of` arrived src
  /\ match ref.2 with
     | inr st' =>
         final_rs r = st' /\ outcome r = read_end src
         /\ map fst ref.1 = arrived src /\ inputs (log r) = arrived src
     | inl (site, e) => outcome r = Raised site e
     end
  /\ match outcome r with
     | Returned | Raised AtSource _ => False
     | Running => read_end src = Running /\ n = length (arrived src)
     | Raised AtRead e =>
         read_end src = Raised AtRead e /\ source_raises src e
         /\ n = length (arrived src)
     | Raised AtReset e => rs_reset (final_rs r) = Err e
     | Raised AtInput e => exists a, arrived src !! n = Some a /\ ad_input a = Err e
     | Raised AtProcess e =>
         exists a i, arrived src !! n = Some a /\ ad_input a = Ok i
                     /\ inst_process i (final_rs r) = Err e
     end.
Proof.
  cbv zeta.
  destruct (main_loop_refines ss sst st src) as (Hrec & Hpre & Hend).
  split_and!; try done.
  - apply main_loop_sequential.
  - clear. revert st. induction src as [|[ev|e] rest IH]; intros st;
      [apply prefix_nil| |apply prefix_nil].
    rewrite main_loop_yield.
    destruct (loop_body_spec ss sst st ev); subst ev; simpl;
      try apply prefix_nil; try (by apply prefix_cons, prefix_nil);
      try apply IH; by apply prefix_cons.
  - apply main_loop_raise_cause.
Qed.

(** C5: both suppression toggles default to suppressed, in the constructor
    of the tracer and on the command line, they are the toggles the loop
    runs with, and the filter is exact.  On a stream whose exchanges are all
    selection or status commands, a tracer built without the toggles, and
    the script started without the options, print nothing; with one toggle
    flipped, by keyword argument or by its option, exactly the records of
    that command type are printed, in order. *)
Theorem suppression_defaults_and_filter
    (open_source : CommandLine.SourceArgs -> Result (Source Apdu))
    (rs0 : RS) (src : Source Apdu)
    (Hopen : open_source (CommandLine.GsmtapUdp "127.0.0.1" (CommandLine.PyInt 4729))
             = Ok src)
    (Honly : Forall (fun i => inst_class i = UiccSelect \/ inst_class i = UiccStatus)
               (records (log (main_loop true true rs0 src)))) :
  let recs := records (log (main_loop true true rs0 src)) in
  let tracer o_select o_status :=
    Tracer_init rs0
      {| kw_suppress_status := o_status; kw_suppress_select := o_select;
         kw_source := Some src |} in
  (forall o_select o_status,
     main (tracer o_select o_status)
     = main_loop (default true o_select) (default true o_status) rs0 src)
  /\ printed (log (main (tracer None None))) = []
  /\ stdout (log (main (tracer None None))) = []
  /\ printed (log (main (tracer (Some false) None)))
     = filter (fun i => inst_class i = UiccSelect) recs
  /\ printed (log (main (tracer None (Some false))))
     = filter (fun i => inst_class i = UiccStatus) recs
  /\ script open_source rs0 ["gsmtap-udp"]
     = Some (Traced (main_loop true true rs0 src))
  /\ script open_source rs0 ["--no-suppress-select"; "gsmtap-udp"]
     = Some (Traced (main_loop false true rs0 src))
  /\ script open_source rs0 ["--no-suppress-status"; "gsmtap-udp"]
     = Some (Traced (main_loop true false rs0 src))
  /\ printed (log (main_loop true true rs0 src)) = []
  /\ printed (log (main_loop false true rs0 src))
     = filter (fun i => inst_class i = UiccSelect) recs
  /\ printed (log (main_loop true false rs0 src))
     = filter (fun i => inst_class i = UiccStatus) recs.
Proof.
  cbv zeta.
  assert (printed (log (main_loop true true rs0 src)) = []) as Hnone.
  { rewrite (proj1 (main_loop_printed _ _ _ _)).
    apply filter_Forall_none. eapply Forall_impl; [exact Honly|].
    intros i [Hi|Hi]; unfold filtered_out; rewrite Hi; simpl;
      rewrite ?bool_decide_eq_true_2 by done; simpl; rewrite ?orb_true_r; done. }
  assert (printed (log (main_loop false true rs0 src))
          = filter (fun i => inst_class i = UiccSelect)
              (records (log (main_loop true true rs0 src)))) as Hsel.
  { rewrite (proj1 (main_loop_printed _ _ _ _)).
    destruct (main_loop_independent false true true true rs0 src)
      as (_ & _ & _ & _ & ->).
    apply filter_Forall_iff. eapply Forall_impl; [exact Honly|].
    intros i [Hi|Hi]; unfold filtered_out; rewrite Hi; simpl;
      split; congruence. }
  assert (printed (log (main_loop true false rs0 src))
          = filter (fun i => inst_class i = UiccStatus)
              (records (log (main_loop true true rs0 src)))) as Hsta.
  { rewrite (proj1 (main_loop_printed _ _ _ _)).
    destruct (main_loop_independent true false true true rs0 src)
      as (_ & _ & _ & _ & ->).
    apply filter_Forall_iff. eapply Forall_impl; [exact Honly|].
    intros i [Hi|Hi]; unfold filtered_out; rewrite Hi; simpl;
      split; congruence. }
  split_and!; try done.
  - change (stdout (log (main_loop true true rs0 src)) = []).
    by rewrite stdout_printed, Hnone.
  - unfold script. simpl. by rewrite Hopen.
  - unfold script. simpl. by rewrite Hopen.
  - unfold script. simpl. by rewrite Hopen.
Qed.

(** C9: the suppression toggles never reach the card state.  Two runs over
    the same events that differ only in the toggles are, after every number
    of reads, in the same runtime state and at the same point (running, or
    left by the same exception), and made the same decoder and process
    calls; in every log the process call of an exchange precedes its
    emission or suppression. *)
Theorem suppression_never_changes_state ss1 sst1 ss2 sst2 st src n :
  let r1 := main_loop ss1 sst1 st (take n src) in
  let r2 := main_loop ss2 sst2 st (take n src) in
  final_rs r1 = final_rs r2
  /\ outcome r1 = outcome r2
  /\ inputs (log r1) = inputs (log r2)
  /\ processes (log r1) = processes (log r2)
  /\ records (log r1) = records (log r2)
  /\ sequential (log r1) /\ sequential (log r2).
Proof.
  cbv zeta.
  destruct (main_loop_independent ss1 sst1 ss2 sst2 st (take n src))
    as (? & ? & ? & ? & ?).
  split_and!; try done; apply main_loop_sequential.
Qed.

(** C10: in an iteration of the loop the decoder and the process operation
    are called if and only if the event read is not a card reset (the
    decoder being one that returns an interpreter for the exchange); for a
    card reset the only call is the reset of the runtime state, so no lookup,
    no interpreter and no record. *)
Theorem decoder_and_process_only_for_exchanges ss sst st ev
    (Hdec : forall a, ev = ApduEv a -> exists i, ad_input a = Ok i) :
  let acts := (loop_body ss sst st ev).1 in
  (isinstance_CardReset ev = false <-> exists a, a ∈ inputs acts)
  /\ (isinstance_CardReset ev = false <-> exists i, i ∈ processes acts)
  /\ (isinstance_CardReset ev = true <-> acts = [AReset])
  /\ inputs acts = match ev with ApduEv a => [a] | CardReset => [] end
  /\ length (processes acts) = (if isinstance_CardReset ev then 0 else 1)
  /\ (if isinstance_CardReset ev then records acts = [] else True).
Proof.
  cbv zeta.
  destruct (loop_body_spec ss sst st ev)
    as [st' ? ?|e ? ?|a e ? Hi|a i e ? Hi Hp|a i i' st' ? Hi Hp ?|a i i' st' ? Hi Hp ?];
    subst ev; simpl.
  1,2: split_and!; try done; split; try done; intros [? Hx]; inversion Hx.
  - destruct (Hdec a eq_refl) as [i Hi']. congruence.
  - split_and!; try done; split; try done; intros _; eexists; by repeat constructor.
  - split_and!; try done; split; try done; intros _; eexists; by repeat constructor.
  - split_and!; try done; split; try done; intros _; eexists; by repeat constructor.
Qed.

End LoopClaims.

(** * Properties of the registry *)

Section RegistryFacts.
Import Commands.

Implicit Types (r : Registry) (k : CommandKey) (d : CommandDescriptor).

(** A lookup in a merged registry asks the later operand first. *)
Lemma lookup_merge r other c i :
  lookup (merge r other) c i =
  match lookup other c i with
  | Some d => Some d
  | None => lookup r c i
  end.
Proof.
  unfold merge. induction r as [|[k d] r IH]; simpl.
  - by destruct (lookup other c i).
  - rewrite IH. by destruct (lookup other c i).
Qed.

Lemma lookup_register k d r c i :
  lookup (register k d r) c i =
  if matches k d c i then Some d else lookup r c i.
Proof.
  unfold register. change (r ++ [(k, d)]) with (merge r [(k, d)]).
  rewrite lookup_merge. simpl. by destruct (matches k d c i).
Qed.

Lemma matches_own_key k d : masked d k.1 = k.1 -> matches k d k.1 k.2 = true.
Proof.
  intros Hk. unfold matches.
  by rewrite !bool_decide_eq_true_2.
Qed.

(** C6: merging command registries is override-last.  When a key is mapped
    to A by the earlier registry and to B by the later one, the merged
    registry maps it to B, also in the three-way merge of the script, where
    the later of two sets prevails whatever the first set holds; and
    registering a key with A and then with B makes its lookup return B.
    The merge is a total function: a collision is no error. *)
Theorem merge_override_last (earlier later : Commands.Registry)
    (K : Commands.CommandKey) (A B : Commands.CommandDescriptor)
    (HA : lookup_key earlier K = Some A) (HB : lookup_key later K = Some B) :
  lookup_key (merge earlier later) K = Some B
  /\ (forall first, lookup_key (ApduCommands first earlier later) K = Some B)
  /\ (forall last, lookup_key last K = None ->
        lookup_key (ApduCommands earlier later last) K = Some B)
  /\ (masked B K.1 = K.1 ->
      forall r, lookup_key (register K B (register K A r)) K = Some B).
Proof.
  unfold lookup_key, ApduCommands in *. split_and!.
  - by rewrite lookup_merge, HB.
  - intros first. by rewrite lookup_merge, HB.
  - intros last Hlast. by rewrite !lookup_merge, Hlast, HB.
  - intros Hk r. by rewrite lookup_register, matches_own_key.
Qed.

End RegistryFacts.

(** * Properties of the card model *)

Section CardModelFacts.
Import CardModel.

Implicit Types (st : RuntimeState) (ch : nat).

Lemma cursor_reset st ch : cursor (reset st) ch = root_cursor.
Proof.
  unfold cursor, reset. simpl. rewrite lookup_fmap.
  by destruct (cursors st !! ch).
Qed.

Lemma cursor_init t ch : cursor (init t) ch = root_cursor.
Proof. unfold cursor, init. simpl. by rewrite lookup_empty. Qed.

Lemma currentNode_reset st ch : currentNode (reset st) ch = tree st.
Proof. unfold currentNode. by rewrite cursor_reset. Qed.

Lemma currentNode_init t ch : currentNode (init t) ch = t.
Proof. unfold currentNode. by rewrite cursor_init. Qed.

Lemma cursor_set_cursor st ch c : cursor (set_cursor st ch c) ch = c.
Proof. unfold cursor, set_cursor. simpl. by rewrite lookup_insert_eq. Qed.

Lemma cursor_set_cursor_ne st ch ch' c :
  ch <> ch' -> cursor (set_cursor st ch c) ch' = cursor st ch'.
Proof. intros Hne. unfold cursor, set_cursor. simpl. by rewrite lookup_insert_ne. Qed.

Lemma path_string_reset st ch : path_string (reset st) ch = path_string (init (tree st)) ch.
Proof. unfold path_string. by rewrite cursor_reset, cursor_init. Qed.

Lemma selectChild_reset st ch i :
  resolution ch (selectChild (reset st) ch i)
  = resolution ch (selectChild (init (tree st)) ch i).
Proof.
  unfold selectChild. rewrite currentNode_reset, currentNode_init.
  rewrite cursor_reset, cursor_init.
  destruct (find_child (tree st) i) as [n|]; [|done].
  unfold resolution. simpl. by rewrite !cursor_set_cursor.
Qed.

Lemma selectAbsolute_reset st ch p :
  resolution ch (selectAbsolute (reset st) ch p)
  = resolution ch (selectAbsolute (init (tree st)) ch p).
Proof.
  unfold selectAbsolute. rewrite cursor_reset, cursor_init. simpl.
  destruct (resolve (tree st) p) as [n|]; [|done].
  unfold resolution. simpl. by rewrite !cursor_set_cursor.
Qed.

Lemma resolve_app t p q :
  resolve t (p ++ q) =
  match resolve t p with
  | Some n => resolve n q
  | None => None
  end.
Proof.
  revert t. induction p as [|j p IH]; intros t; simpl; [done|].
  by destruct (find_child t j).
Qed.

(** A selection that finds its target leaves the channel's cursor on an
    existing node, and the cursors of the other channels where they were. *)
Lemma selectChild_wf st ch i n st' :
  wf st -> selectChild st ch i = Some (n, st') -> wf st'.
Proof.
  unfold selectChild, wf. intros Hwf Hsel ch' c' Hc'.
  destruct (find_child (currentNode st ch) i) as [m|] eqn:Hfind; [|done].
  injection Hsel as <- <-. simpl in Hc'.
  destruct (decide (ch = ch')) as [<-|Hne].
  - rewrite lookup_insert_eq in Hc'. injection Hc' as <-. simpl.
    unfold currentNode, cursor in *.
    assert (is_Some (resolve (tree st) (c_path (default root_cursor (cursors st !! ch)))))
      as [cur Hcur].
    { destruct (cursors st !! ch) as [c|] eqn:Hc; simpl; [by eapply Hwf|by eexists]. }
    rewrite Hcur in Hfind. simpl in Hfind.
    rewrite resolve_app, Hcur. simpl. rewrite Hfind. by eexists.
  - rewrite lookup_insert_ne in Hc' by done. by eapply Hwf.
Qed.

Lemma selectAbsolute_wf st ch p n st' :
  wf st -> selectAbsolute st ch p = Some (n, st') -> wf st'.
Proof.
  unfold selectAbsolute, wf. intros Hwf Hsel ch' c' Hc'.
  destruct (resolve (tree st) p) as [m|] eqn:Hres; [|done].
  injection Hsel as <- <-. simpl in Hc'.
  destruct (decide (ch = ch')) as [<-|Hne].
  - rewrite lookup_insert_eq in Hc'. injection Hc' as <-. simpl. by rewrite Hres.
  - rewrite lookup_insert_ne in Hc' by done. by eapply Hwf.
Qed.

Lemma reset_wf st : wf (reset st).
Proof.
  intros ch c. unfold reset. simpl. rewrite lookup_fmap.
  destruct (cursors st !! ch); [|done]. intros [= <-]. by eexists.
Qed.

End CardModelFacts.

(** * The loop with the decoder and interpreters of the specification *)

Section SpecClaims.
Import CardModel Commands.
Context `{FieldParser} (r : Registry).

#[local] Instance spec_iface_instance : TraceIface Apdu Interp RuntimeState :=
  spec_iface r.

Implicit Types (st : RuntimeState) (src : Source Apdu) (a : Apdu) (i : Interp).

Lemma decode_apdu a : i_apdu (decode r a) = a.
Proof. unfold decode. by destruct (lookup r (cla a) (ins a)). Qed.

Lemma decode_lchan a : i_lchan (decode r a) = lchan_of a.
Proof. unfold decode. by destruct (lookup r (cla a) (ins a)). Qed.

Lemma process_apdu i st : i_apdu (process i st).1 = i_apdu i.
Proof.
  unfold process. destruct (i_variant i) as [| |effect|]; simpl; try done.
  - by destruct (select st (i_lchan i) (target_of (i_apdu i))) as [[n st']|].
  - by destruct (effect (i_apdu i) st).
Qed.

Lemma process_variant i st : i_variant (process i st).1 = i_variant i.
Proof.
  unfold process. destruct (i_variant i) as [| |effect|] eqn:Hv; simpl; try done.
  - by destruct (select st (i_lchan i) (target_of (i_apdu i))) as [[n st']|].
  - by destruct (effect (i_apdu i) st).
Qed.

Lemma select_missing st ch t : target_missing st ch t -> select st ch t = None.
Proof.
  destruct t as [j|p]; simpl; intros Hm.
  - unfold selectChild. by rewrite Hm.
  - unfold selectAbsolute. by rewrite Hm.
Qed.

(** One iteration on an exchange, with the decoder and the interpreters of
    the specification: it never raises. *)
Lemma spec_loop_body ss sst st a :
  let i := decode r a in
  let i' := (process i st).1 in
  loop_body ss sst st (ApduEv a) =
  ([AInput a; AProcess i; if filtered_out ss sst i' then ASuppress i' else APrint i'],
   inr (process i st).2).
Proof.
  cbv zeta. simpl. destruct (process (decode r a) st) as [i' st'] eqn:Hp. simpl.
  unfold filtered_out. simpl.
  destruct (ss && bool_decide (class_of i' = UiccSelect)); [done|].
  by destruct (sst && bool_decide (class_of i' = UiccStatus)).
Qed.

Lemma spec_main_loop_complete ss sst st src :
  let run := main_loop ss sst st src in
  (outcome run = Running /\ (forall e, ~ source_raises src e)
   \/ exists e, outcome run = Raised AtRead e /\ source_raises src e)
  /\ inputs (log run) = arrived src
  /\ map i_apdu (records (log run)) = arrived src.
Proof.
  cbv zeta. revert st. induction src as [|[ev|e] rest IH]; intros st.
  - split_and!; try done. left. split; [done|].
    intros e (evs & rest & Heq). by destruct evs.
  - rewrite main_loop_yield. destruct ev as [a|].
    + rewrite spec_loop_body. simpl.
      destruct (IH (process (decode r a) st).2) as (Hout & Hin & Hrec).
      split_and!.
      * destruct Hout as [[Hrun Hno]|(e & He & evs & rest' & ->)].
        -- left. split; [done|]. intros e (evs & rest' & Heq).
           destruct evs as [|ev evs]; [done|]. injection Heq as _ Heq.
           apply (Hno e). by exists evs, rest'.
        -- right. exists e. split; [done|]. by exists (ApduEv a :: evs), rest'.
      * change (inputs (?x :: AInput a :: ?l)) with (a :: inputs l).
        change (inputs (AProcess ?x :: ?y :: ?l)) with (inputs (y :: l)).
        destruct (filtered_out _ _ _); simpl;
          [change (inputs (ASuppress ?x :: ?l)) with (inputs l)
          |change (inputs (APrint ?x :: ?l)) with (inputs l)]; by rewrite Hin.
      * destruct (filtered_out _ _ _).
        -- change (records (?x :: ?y :: ?z :: ASuppress ?i :: ?l)) with (i :: records l).
           simpl. by rewrite process_apdu, decode_apdu, Hrec.
        -- change (records (?x :: ?y :: ?z :: APrint ?i :: ?l)) with (i :: records l).
           simpl. by rewrite process_apdu, decode_apdu, Hrec.
    + simpl. destruct (IH (reset st)) as (Hout & Hin & Hrec).
      split_and!; try done.
      destruct Hout as [[Hrun Hno]|(e & He & evs & rest' & ->)].
      * left. split; [done|]. intros e (evs & rest' & Heq).
        destruct evs as [|ev evs]; [done|]. injection Heq as _ Heq.
        apply (Hno e). by exists evs, rest'.
      * right. exists e. split; [done|]. by exists (CardReset :: evs), rest'.
  - split_and!; try done. right. exists e. split; [done|]. by exists [], rest.
Qed.

Lemma spec_outcome_raise ss sst st evs e rest :
  outcome (main_loop ss sst st (map Yield evs ++ Raise e :: rest)) = Raised AtRead e.
Proof.
  revert st. induction evs as [|ev evs IH]; intros st; [done|].
  simpl map. simpl app. rewrite main_loop_yield.
  destruct ev as [a|]; [rewrite spec_loop_body|]; simpl; apply IH.
Qed.

Lemma spec_outcome_running ss sst st evs :
  outcome (main_loop ss sst st (map Yield evs)) = Running.
Proof.
  revert st. induction evs as [|ev evs IH]; intros st; [done|].
  simpl map. rewrite main_loop_yield.
  destruct ev as [a|]; [rewrite spec_loop_body|]; simpl; apply IH.
Qed.

(** C1: a card reset read by the loop makes it call the reset of the
    runtime state and go on with the next event; nothing is decoded and
    nothing is printed for it.  The reset leaves every channel's cursor at
    the root, with no application context, and a selection made next, by
    child or by path, resolves as it does in the state the tracer starts
    in. *)
Theorem card_reset_collapses_cursors ss sst st rest :
  loop_body ss sst st CardReset = ([AReset], inr (reset st))
  /\ main_loop ss sst st (Yield CardReset :: rest)
     = after [ARead; AReset] (main_loop ss sst (reset st) rest)
  /\ stdout (loop_body ss sst st CardReset).1 = []
  /\ records (loop_body ss sst st CardReset).1 = []
  /\ (forall ch, cursor (reset st) ch = root_cursor
                 /\ currentNode (reset st) ch = tree st
                 /\ applicationContext (reset st) ch = None)
  /\ (forall ch (j : Ident), resolution ch (selectChild (reset st) ch j)
                   = resolution ch (selectChild (init (tree st)) ch j))
  /\ (forall ch p, resolution ch (selectAbsolute (reset st) ch p)
                   = resolution ch (selectAbsolute (init (tree st)) ch p))
  /\ (forall ch, path_string (reset st) ch = path_string (init (tree st)) ch).
Proof.
  split_and!; try done.
  - intros ch. unfold applicationContext.
    by rewrite currentNode_reset, cursor_reset.
  - intros. apply selectChild_reset.
  - intros. apply selectAbsolute_reset.
  - intros. apply path_string_reset.
Qed.

(** C3: an exchange whose class and instruction match no entry of the
    registry does not stop the loop and raises nothing.  The decoder returns
    the unknown interpreter, its processing leaves the runtime state as it
    was, and the loop prints exactly one record for the exchange, whatever
    the toggles, whose processed text is the unrecognized-command mark; then
    it goes on with the next event. *)
Theorem unknown_command_yields_one_record ss sst st a rest
    (Hunknown : lookup r (cla a) (ins a) = None) :
  let i := decode r a in
  let i' := with_result i (path_string st (lchan_of a)) unrecognized in
  ad_input a = Ok i
  /\ i_variant i = VUnknown
  /\ inst_process i st = Ok (i', st)
  /\ loop_body ss sst st (ApduEv a) = ([AInput a; AProcess i; APrint i'], inr st)
  /\ main_loop ss sst st (Yield (ApduEv a) :: rest)
     = after [ARead; AInput a; AProcess i; APrint i'] (main_loop ss sst st rest)
  /\ records (loop_body ss sst st (ApduEv a)).1 = [i']
  /\ stdout (loop_body ss sst st (ApduEv a)).1 = format_capdu i'
  /\ processed i' = unrecognized.
Proof.
  cbv zeta.
  assert (decode r a =
    {| i_lchan := lchan_of a; i_apdu := a; i_name := "UNKNOWN";
       i_path_str := ""; i_col_id := col_id_of a; i_col_sw := col_sw_of a;
       i_processed := unrecognized; i_variant := VUnknown |}) as Hd.
  { unfold decode. by rewrite Hunknown. }
  assert (process (decode r a) st
          = (with_result (decode r a) (path_string st (lchan_of a)) unrecognized, st))
    as Hp by (by rewrite Hd).
  assert (loop_body ss sst st (ApduEv a)
          = ([AInput a; AProcess (decode r a);
              APrint (with_result (decode r a) (path_string st (lchan_of a)) unrecognized)],
             inr st)) as Hb.
  { rewrite spec_loop_body, Hp. simpl. unfold filtered_out. simpl.
    unfold class_of. rewrite Hd. simpl. by rewrite !andb_false_r. }
  split_and!; try done.
  - by rewrite Hd.
  - simpl. by rewrite Hp.
  - by rewrite main_loop_yield, Hb.
  - by rewrite Hb.
  - by rewrite Hb.
Qed.

(** C4: a selection command whose target does not exist, under the current
    node or at the absolute path it names, is processed without raising and
    leaves the runtime state, hence the current node of every channel, as it
    was.  Its record carries the failure text, which is no success text, and
    the path string of the location the channel was at before the command;
    the loop prints that record unless selections are suppressed. *)
Theorem failed_selection_keeps_cursor (sst : bool) st a
    (Hsel : i_variant (decode r a) = VSelect)
    (Hmiss : target_missing st (lchan_of a) (target_of a)) :
  let i := decode r a in
  let i' := with_result i (path_string st (lchan_of a)) select_failed in
  inst_process i st = Ok (i', st)
  /\ (forall ch, currentNode (process i st).2 ch = currentNode st ch)
  /\ processed i' = select_failed
  /\ (forall p, select_failed <> select_ok p)
  /\ path_str i' = path_string st (lchan_of a)
  /\ loop_body false sst st (ApduEv a) = ([AInput a; AProcess i; APrint i'], inr st)
  /\ loop_body true sst st (ApduEv a) = ([AInput a; AProcess i; ASuppress i'], inr st).
Proof.
  cbv zeta.
  assert (process (decode r a) st
          = (with_result (decode r a) (path_string st (lchan_of a)) select_failed, st))
    as Hp.
  { unfold process. rewrite Hsel, decode_lchan, decode_apdu.
    by rewrite (select_missing _ _ _ Hmiss). }
  assert (class_of (with_result (decode r a) (path_string st (lchan_of a)) select_failed)
          = UiccSelect) as Hc.
  { unfold class_of. simpl. by rewrite Hsel. }
  split_and!; try done.
  - simpl. by rewrite Hp.
  - by rewrite Hp.
  - rewrite spec_loop_body, Hp. simpl. unfold filtered_out. simpl. rewrite Hc. simpl.
    by destruct sst.
  - rewrite spec_loop_body, Hp. simpl. unfold filtered_out. simpl. by rewrite Hc.
Qed.

End SpecClaims.

(** * Exceptions and the end of the loop *)

Section LoopEnd.
Context {Apdu Inst RS : Type} `{TraceIface Apdu Inst RS}.

Implicit Types (st : RS) (src : Source Apdu) (ev : Event Apdu) (l : list (Action Apdu Inst)).

(** A raising read after events that were handled without an exception. *)
Lemma main_loop_raising_read ss sst st evs e rest :
  outcome (main_loop ss sst st (map Yield evs)) = Running ->
  let r := main_loop ss sst st (map Yield evs ++ Raise e :: rest) in
  let r0 := main_loop ss sst st (map Yield evs) in
  outcome r = Raised AtRead e /\ log r = log r0 /\ final_rs r = final_rs r0.
Proof.
  cbv zeta. revert st. induction evs as [|ev evs IH]; intros st Hrun; [done|].
  simpl map in *. simpl app. rewrite !main_loop_yield in *.
  destruct (loop_body ss sst st ev) as [acts [[s e']|st']]; [done|].
  simpl in Hrun. destruct (IH st' Hrun) as (? & Hlog & ?).
  split_and!; try done. by rewrite !log_after, Hlog.
Qed.

(** C7 (amended): the loop has no handler of its own.  An exception raised
    by the decoder or by process for an exchange (or by the reset for a card
    reset) leaves the loop and ends it: the exchange gets no record, nothing
    is printed for it, and the events after it are never decoded.  What the
    loop does guarantee is that no exchange that was decoded and processed is
    dropped silently: every record is either printed, as the formatting of
    the processed command, or suppressed, and suppressed only where the
    toggles say so. *)
Theorem exchange_exceptions_leave_the_loop ss sst st :
  (forall src,
     let r := main_loop ss sst st src in
     records (log r) = map snd (one_at_a_time st (delivered src)).1
     /\ records (log r) ≡ₚ printed (log r) ++ suppressed (log r)
     /\ Forall (fun i => filtered_out ss sst i = true) (suppressed (log r))
     /\ Forall (fun i => filtered_out ss sst i = false) (printed (log r))
     /\ stdout (log r) = flat_map format_capdu (printed (log r)))
  /\ (forall evs ps st1 a rest e,
        one_at_a_time st evs = (ps, inr st1) ->
        ad_input a = Err e ->
        let r := main_loop ss sst st (map Yield evs ++ Yield (ApduEv a) :: rest) in
        outcome r = Raised AtInput e
        /\ records (log r) = map snd ps
        /\ inputs (log r) = map fst ps ++ [a]
        /\ final_rs r = st1)
  /\ (forall evs ps st1 a i rest e,
        one_at_a_time st evs = (ps, inr st1) ->
        ad_input a = Ok i -> inst_process i st1 = Err e ->
        let r := main_loop ss sst st (map Yield evs ++ Yield (ApduEv a) :: rest) in
        outcome r = Raised AtProcess e
        /\ records (log r) = map snd ps
        /\ inputs (log r) = map fst ps ++ [a]
        /\ final_rs r = st1)
  /\ (forall evs ps st1 rest e,
        one_at_a_time st evs = (ps, inr st1) ->
        rs_reset st1 = Err e ->
        let r := main_loop ss sst st (map Yield evs ++ Yield CardReset :: rest) in
        outcome r = Raised AtReset e
        /\ records (log r) = map snd ps
        /\ inputs (log r) = map fst ps
        /\ final_rs r = st1).
Proof.
  split_and!.
  - intros src. cbv zeta.
    destruct (main_loop_printed ss sst st src) as [Hpr Hsu].
    split_and!.
    + apply main_loop_refines.
    + rewrite Hpr, Hsu.
      rewrite <-(filter_app_complement (fun i => filtered_out ss sst i = false)
                   (records (log (main_loop ss sst st src)))) at 1.
      f_equiv. apply reflexive_eq, list_filter_iff. intros i.
      by destruct (filtered_out ss sst i).
    + rewrite Hsu. apply Forall_forall. intros i Hi.
      by apply list_elem_of_filter in Hi as [? _].
    + rewrite Hpr. apply Forall_forall. intros i Hi.
      by apply list_elem_of_filter in Hi as [? _].
    + apply stdout_printed.
  - intros evs ps st1 a rest e Href Herr. cbv zeta.
    destruct (main_loop_after_events ss sst st evs ps st1
                (Yield (ApduEv a) :: rest) Href) as (-> & -> & -> & ->).
    rewrite main_loop_yield. simpl. rewrite Herr. simpl.
    by rewrite app_nil_r.
  - intros evs ps st1 a i rest e Href Hi Herr. cbv zeta.
    destruct (main_loop_after_events ss sst st evs ps st1
                (Yield (ApduEv a) :: rest) Href) as (-> & -> & -> & ->).
    rewrite main_loop_yield. simpl. rewrite Hi, Herr. simpl.
    by rewrite app_nil_r.
  - intros evs ps st1 rest e Href Herr. cbv zeta.
    destruct (main_loop_after_events ss sst st evs ps st1
                (Yield CardReset :: rest) Href) as (-> & -> & -> & ->).
    rewrite main_loop_yield. simpl. rewrite Herr. simpl.
    by rewrite !app_nil_r.
Qed.

(** C8 (amended): the loop has no clean exit: it never returns.  When the
    source reports the end of the stream, by raising from its read, the loop
    ends with that exception leaving [main], exactly as for any other
    exception a read raises, and the script ends with status 1.  A run that
    is over was left by an exception: one raised by a read of the source, or
    one raised by the reset, the decoder or process for an event that was
    read; as long as neither happens the loop is running. *)
Theorem loop_ends_only_by_exception ss sst st :
  (forall src, outcome (main_loop ss sst st src) <> Returned)
  /\ (forall evs e rest,
        outcome (main_loop ss sst st (map Yield evs)) = Running ->
        let r := main_loop ss sst st (map Yield evs ++ Raise e :: rest) in
        outcome r = Raised AtRead e
        /\ exit_status (outcome r) = Some 1
        /\ log r = log (main_loop ss sst st (map Yield evs))
        /\ final_rs r = final_rs (main_loop ss sst st (map Yield evs)))
  /\ (forall src,
        let r := main_loop ss sst st src in
        match outcome r with
        | Returned | Raised AtSource _ => False
        | Running => forall e, ~ source_raises src e
        | Raised AtRead e => source_raises src e
        | Raised AtReset e => rs_reset (final_rs r) = Err e
        | Raised AtInput e => exists a, a ∈ arrived src /\ ad_input a = Err e
        | Raised AtProcess e =>
            exists a i, a ∈ arrived src /\ ad_input a = Ok i
                        /\ inst_process i (final_rs r) = Err e
        end).
Proof.
  split_and!.
  - intros src. apply main_loop_never_returns.
  - intros evs e rest Hrun. cbv zeta.
    destruct (main_loop_raising_read ss sst st evs e rest Hrun) as (Hout & ? & ?).
    split_and!; try done. by rewrite Hout.
  - intros src. cbv zeta.
    pose proof (main_loop_raise_cause ss sst st src) as Hcause. cbv zeta in Hcause.
    destruct (outcome (main_loop ss sst st src)) as [|[] e|]; try done.
    + by destruct Hcause as (_ & ? & _).
    + destruct Hcause as (a & Ha & ?). exists a. split; [|done].
      by eapply list_elem_of_lookup_2.
    + destruct Hcause as (a & i & Ha & ? & ?). exists a, i. split_and!; try done.
      by eapply list_elem_of_lookup_2.
    + destruct Hcause as [Hend _]. intros e (evs & rest & ->).
      clear -Hend. induction evs as [|ev evs IH]; simpl in Hend; [done|by apply IH].
Qed.

End LoopEnd.

(** * The scenarios of the specification, on the sample card *)

Section Scenarios.
Import CardModel Commands Sample.

#[local] Existing Instance Sample.parser.
#[local] Existing Instance Sample.iface.

(** Reset, SELECT MF, SELECT DF_TELECOM, STATUS: nothing is printed with the
    default toggles. *)
Example scenario_default :
  stdout (log (main_loop true true (init MF) scenario)) = [].
Proof. reflexivity. Qed.

(** With selections shown: two records, the second at MF/DF_TELECOM. *)
Example scenario_no_suppress_select :
  stdout (log (main_loop false true (init MF) scenario)) =
  ["00 SELECT (USIM)    MF                                  -        9000 selected MF";
   separator;
   "00 SELECT (USIM)    MF/DF_TELECOM                       -        9000 selected MF/DF_TELECOM";
   separator].
Proof. reflexivity. Qed.

(** With status shown as well: a third record at the same path, and the
    cursor where the second selection left it. *)
Example scenario_no_suppress_status :
  let run := main_loop false false (init MF) scenario in
  map path_str (printed (log run)) = ["MF"; "MF/DF_TELECOM"; "MF/DF_TELECOM"]
  /\ path_string (final_rs run) 0 = "MF/DF_TELECOM".
Proof. split; reflexivity. Qed.

(** SELECT of a file that does not exist, on a tree with only its root. *)
Example scenario_nonexistent :
  stdout (log (main_loop false true (init MF_only) [Yield (ApduEv select_NONEXISTENT)])) =
  ["00 SELECT (USIM)    MF                                  -        9000 select failed: no such file or application";
   separator].
Proof. reflexivity. Qed.

(** The class byte is compared under the mask of the descriptor, and the
    set added last prevails. *)
Example lookup_masked_class :
  lookup commands 0x03 0xA4 = Some usim_select
  /\ lookup commands 0xA0 0xA4 = Some sim_select
  /\ lookup commands 0x80 0xCA = None.
Proof. repeat split. Qed.

(** The command line: the subcommand is required, the two options belong
    before it, and an abbreviation is accepted when only one option has
    it. *)
Example parse_args_cases :
  CommandLine.parse_args [] = Some (CommandLine.Exit 2)
  /\ CommandLine.parse_args ["--no-suppress-select"] = Some (CommandLine.Exit 2)
  /\ CommandLine.parse_args ["gsmtap-udp"; "--no-suppress-select"]
     = Some (CommandLine.Exit 2)
  /\ CommandLine.parse_args ["--no-suppress-s"; "gsmtap-udp"]
     = Some (CommandLine.Exit 2)
  /\ CommandLine.parse_args ["--help"] = Some (CommandLine.Exit 0)
  /\ CommandLine.parse_args ["rspro-pyshark-pcap"] = Some (CommandLine.Exit 2)
  /\ CommandLine.parse_args ["--no-suppress-se"; "gsmtap-udp"; "-p"; "4730"]
     = Some (CommandLine.Parsed
               {| CommandLine.opt_suppress_select := false;
                  CommandLine.opt_suppress_status := true;
                  CommandLine.opt_source :=
                    CommandLine.GsmtapUdp "127.0.0.1" (CommandLine.PyStr "4730") |})
  /\ CommandLine.parse_args ["--no-suppress-select=1"; "gsmtap-udp"] = None.
Proof. split_and!; reflexivity. Qed.

(** A tracer built without a source fails at the first read. *)
Example main_without_source :
  outcome (main (Tracer_init (init MF)
                   {| kw_suppress_status := None; kw_suppress_select := None;
                      kw_source := None |}))
  = Raised AtSource (AttributeError "'NoneType' object has no attribute 'read'").
Proof. reflexivity. Qed.

(** C3, on the sample: a vendor command unknown to the command sets. *)
Lemma unknown_command_witness :
  lookup commands (cla vendor) (ins vendor) = None
  /\ stdout (loop_body true true (init MF_only) (ApduEv vendor)).1 =
     ["00 UNKNOWN          MF                                  -        9000 unrecognized command";
      separator].
Proof.
  split; [reflexivity|].
  destruct (unknown_command_yields_one_record (H:=parser) commands true true
              (init MF_only) vendor [] eq_refl)
    as (_ & _ & _ & _ & _ & _ & Hout & _).
  exact Hout.
Defined.

(** C4, on the sample: SELECT of a missing file on the root-only tree. *)
Lemma failed_selection_witness :
  i_variant (decode commands select_NONEXISTENT) = VSelect
  /\ target_missing (init MF_only) (lchan_of select_NONEXISTENT)
       (target_of select_NONEXISTENT)
  /\ (loop_body false true (init MF_only) (ApduEv select_NONEXISTENT)).2
     = inr (init MF_only).
Proof.
  split; [reflexivity|]. split; [reflexivity|].
  destruct (failed_selection_keeps_cursor (H:=parser) commands true
              (init MF_only) select_NONEXISTENT eq_refl eq_refl)
    as (_ & _ & _ & _ & _ & Hbody & _).
  exact (f_equal snd Hbody).
Defined.

(** C5, on the sample scenario, whose exchanges are selections and a
    status, read from the default GSMTAP source. *)
Lemma suppression_filter_witness :
  open_scenario (CommandLine.GsmtapUdp "127.0.0.1" (CommandLine.PyInt 4729))
  = Ok scenario
  /\ Forall (fun i => inst_class i = UiccSelect \/ inst_class i = UiccStatus)
       (records (log (main_loop true true (init MF) scenario)))
  /\ script open_scenario (init MF) ["--no-suppress-select"; "gsmtap-udp"]
     = Some (Traced (main_loop false true (init MF) scenario))
  /\ map inst_name (printed (log (main_loop false true (init MF) scenario)))
     = ["SELECT (USIM)"; "SELECT (USIM)"]
  /\ map inst_name (printed (log (main_loop true false (init MF) scenario)))
     = ["STATUS"].
Proof.
  assert (Forall (fun i => inst_class i = UiccSelect \/ inst_class i = UiccStatus)
            (records (log (main_loop true true (init MF) scenario)))) as Honly.
  { repeat first
      [ apply List.Forall_nil
      | apply List.Forall_cons; [first [left; reflexivity | right; reflexivity]|] ]. }
  split; [reflexivity|]. split; [exact Honly|].
  destruct (suppression_defaults_and_filter open_scenario (init MF) scenario
              eq_refl Honly)
    as (_ & _ & _ & _ & _ & _ & Hscript & _ & _ & Hsel & Hsta).
  split; [exact Hscript|]. split.
  - exact (f_equal (map inst_name) Hsel).
  - exact (f_equal (map inst_name) Hsta).
Defined.

(** C6, on the sample: the USIM set re-registers the key of SELECT. *)
Lemma merge_override_witness :
  lookup_key UiccApduCommands (0x00, 0xA4)%Z = Some uicc_select
  /\ lookup_key UsimApduCommands (0x00, 0xA4)%Z = Some usim_select
  /\ lookup_key (merge UiccApduCommands UsimApduCommands) (0x00, 0xA4)%Z
     = Some usim_select.
Proof.
  split; [reflexivity|]. split; [reflexivity|].
  exact (proj1 (merge_override_last UiccApduCommands UsimApduCommands
                  (0x00, 0xA4)%Z uicc_select usim_select eq_refl eq_refl)).
Defined.

(** C10, on the sample: an iteration on SELECT MF. *)
Lemma decoder_and_process_witness :
  (forall a, ApduEv select_MF = ApduEv a -> exists i, ad_input a = Ok i)
  /\ inputs (loop_body true true (init MF) (ApduEv select_MF)).1 = [select_MF]
  /\ length (processes (loop_body true true (init MF) (ApduEv select_MF)).1) = 1.
Proof.
  assert (forall a, ApduEv select_MF = ApduEv a -> exists i, ad_input a = Ok i) as Hdec.
  { intros a _. eexists. reflexivity. }
  split; [exact Hdec|].
  destruct (decoder_and_process_only_for_exchanges true true (init MF)
              (ApduEv select_MF) Hdec)
    as (_ & _ & _ & Hin & Hpr & _).
  split; [exact Hin|exact Hpr].
Defined.

(** C7, as the claim states it, fails: an exception of the decoder is not
    absorbed in the loop.  With a decoder that raises on an unknown
    instruction, the vendor command ends the loop with that exception;
    nothing is printed for it, and the SELECT that follows is never read. *)
Lemma decoder_exception_is_not_absorbed :
  let r := @main_loop Apdu Interp RuntimeState strict_iface false false (init MF)
             [Yield (ApduEv vendor); Yield (ApduEv select_MF)] in
  strict_input vendor = Err (ValueError "Unknown INS")
  /\ outcome r = Raised AtInput (ValueError "Unknown INS")
  /\ log r = [ARead; AInput vendor]
  /\ @stdout Apdu Interp RuntimeState strict_iface (log r) = [].
Proof. cbv zeta. split_and!; reflexivity. Qed.

(** C8, as the claim states it, fails: when the source reports the end of
    the stream the loop does not end cleanly; the exception leaves [main]
    and the script ends with status 1. *)
Lemma end_of_stream_is_not_clean :
  let t := Tracer_init (init MF)
             {| kw_suppress_status := Some true; kw_suppress_select := Some true;
                kw_source := Some [Yield (ApduEv select_MF); Raise EndOfStream] |} in
  outcome (main t) = Raised AtRead EndOfStream
  /\ outcome (main t) <> Returned
  /\ exit_status (outcome (main t)) = Some 1.
Proof. cbv zeta. split_and!; [reflexivity|discriminate|reflexivity]. Qed.

End Scenarios.

(** * Further properties of the script *)

(** ** Formatting *)

Section FormatFacts.

Lemma string_length_app (s t : string) :
  String.length (s +:+ t) = String.length s + String.length t.
Proof. induction s as [|c s IH]; simpl; [done|]. by rewrite IH. Qed.

Lemma string_app_assoc (s t u : string) : (s +:+ t) +:+ u = s +:+ t +:+ u.
Proof.
  induction s as [|c s IH]; [done|].
  change (String c ((s +:+ t) +:+ u) = String c (s +:+ t +:+ u)). by f_equal.
Qed.

Lemma fill_length n c : String.length (fill n c) = n.
Proof. induction n as [|n IH]; simpl; [done|]. by rewrite IH. Qed.

Lemma ljust_length w s : String.length (ljust w s) = Nat.max w (String.length s).
Proof. unfold ljust. rewrite string_length_app, fill_length. lia. Qed.

Lemma fmt_02u_length n :
  String.length (fmt_02u n) = Nat.max 2 (String.length (pretty n)).
Proof. unfold fmt_02u. cbv zeta. rewrite string_length_app, fill_length. lia. Qed.

Lemma pretty_nat_two_digits n : n < 100 -> String.length (pretty n) <= 2.
Proof.
  intros Hn.
  do 100 (destruct n as [|n]; [vm_compute; lia|]). lia.
Qed.

Lemma newlines_app (s t : string) : newlines (s +:+ t) = newlines s + newlines t.
Proof.
  induction s as [|c s IH]; [done|].
  change (newlines (String c (s +:+ t)) = newlines (String c s) + newlines t).
  simpl. rewrite IH. lia.
Qed.

Lemma newlines_fill n c : c <> newline -> newlines (fill n c) = 0.
Proof.
  intros Hc. induction n as [|n IH]; simpl; [done|].
  rewrite IH. by destruct (Ascii.eqb_spec c newline).
Qed.

Lemma newlines_ljust w s : newlines (ljust w s) = newlines s.
Proof. unfold ljust. rewrite newlines_app, newlines_fill by done. lia. Qed.

Lemma pretty_N_char_digit x : Ascii.eqb (pretty_N_char x) newline = false.
Proof. unfold pretty_N_char. by repeat case_match. Qed.

Lemma newlines_pretty_N_go x s : newlines (pretty_N_go x s) = newlines s.
Proof.
  revert s. induction (N.lt_wf_0 x) as [x _ IH]; intros s.
  destruct (decide (x = 0)%N) as [->|Hx]; [by rewrite pretty_N_go_0|].
  rewrite pretty_N_go_step by lia.
  rewrite IH by (apply N.div_lt; lia).
  simpl. by rewrite pretty_N_char_digit.
Qed.

Lemma newlines_pretty_nat (n : nat) : newlines (pretty n) = 0.
Proof.
  unfold pretty, pretty_nat, pretty, pretty_N.
  case_decide; [done|]. by rewrite newlines_pretty_N_go.
Qed.

Lemma newlines_fmt_02u n : newlines (fmt_02u n) = 0.
Proof.
  unfold fmt_02u. cbv zeta.
  by rewrite newlines_app, newlines_fill, newlines_pretty_nat.
Qed.

Lemma written_app (l1 l2 : list string) :
  written (l1 ++ l2) = written l1 +:+ written l2.
Proof.
  induction l1 as [|s l1 IH]; [done|].
  simpl. rewrite IH. rewrite string_app_assoc. done.
Qed.

Context {Apdu Inst RS : Type} `{TraceIface Apdu Inst RS}.

Lemma newlines_format_capdu (inst : Inst) :
  newlines (written (format_capdu inst)) = 2 + field_newlines inst.
Proof.
  unfold format_capdu, field_newlines. cbn [written].
  rewrite !newlines_app, newlines_fmt_02u, !newlines_ljust.
  cbn [newlines]. rewrite !newlines_app. simpl. lia.
Qed.

(** X1: format_capdu makes two print calls, the record and the separator
    of 31 characters.  No field of the record is cut: each of the four
    padded columns takes its width or the length of its text, whichever is
    larger.  The text written has two lines, and one more for every newline
    character in a text field of the command: exactly two when the fields
    hold none. *)
Theorem format_capdu_line_length (inst : Inst) :
  exists line,
    format_capdu inst = [line; separator]
    /\ String.length separator = 31
    /\ String.length line =
       Nat.max 2 (String.length (pretty (lchan_nr inst)))
       + Nat.max 16 (String.length (inst_name inst))
       + Nat.max 35 (String.length (path_str inst))
       + Nat.max 8 (String.length (col_id inst))
       + String.length (col_sw inst) + String.length (processed inst) + 5
    /\ written (format_capdu inst)
       = line +:+ String newline (separator +:+ String newline "")
    /\ newlines (written (format_capdu inst)) = 2 + field_newlines inst.
Proof.
  eexists. split; [reflexivity|]. split; [reflexivity|]. split_and!.
  - rewrite !string_length_app, fmt_02u_length, !ljust_length. simpl. lia.
  - reflexivity.
  - apply newlines_format_capdu.
Qed.

(** X2: when the channel number has at most two digits and the name, the
    path and the column id fit their widths of 16, 35 and 8, the status word
    of the record starts after exactly 65 characters, so the columns of
    successive records line up. *)
Theorem format_capdu_columns_aligned (inst : Inst)
    (Hchan : lchan_nr inst < 100)
    (Hname : String.length (inst_name inst) <= 16)
    (Hpath : String.length (path_str inst) <= 35)
    (Hid : String.length (col_id inst) <= 8) :
  exists head,
    String.length head = 65
    /\ format_capdu inst = [head +:+ col_sw inst +:+ " " +:+ processed inst; separator].
Proof.
  exists (fmt_02u (lchan_nr inst) +:+ " " +:+ ljust 16 (inst_name inst) +:+ " "
          +:+ ljust 35 (path_str inst) +:+ " " +:+ ljust 8 (col_id inst) +:+ " ").
  split.
  - rewrite !string_length_app, fmt_02u_length, !ljust_length. simpl.
    pose proof (pretty_nat_two_digits _ Hchan). lia.
  - unfold format_capdu. by rewrite !string_app_assoc.
Qed.

End FormatFacts.

(** ** The loop *)

Section LoopExtras.
Context {Apdu Inst RS : Type} `{TraceIface Apdu Inst RS}.

Implicit Types (st : RS) (src : Source Apdu) (ev : Event Apdu) (l : list (Action Apdu Inst)).

Lemma reads_app l1 l2 : reads (l1 ++ l2) = reads l1 + reads l2.
Proof. unfold reads. by rewrite omap_app, length_app. Qed.

Lemma resets_app l1 l2 : resets (l1 ++ l2) = resets l1 + resets l2.
Proof. unfold resets. by rewrite omap_app, length_app. Qed.

Lemma main_loop_log_nonempty ss sst st src : log (main_loop ss sst st src) <> [].
Proof.
  destruct src as [|[ev|e] rest]; [done| |done].
  rewrite main_loop_yield.
  by destruct (loop_body ss sst st ev) as [acts [[s e]|st']].
Qed.

Lemma main_loop_raised_app ss sst st src more s e :
  outcome (main_loop ss sst st src) = Raised s e ->
  main_loop ss sst st (src ++ more) = main_loop ss sst st src.
Proof.
  revert st. induction src as [|[ev|e'] rest IH]; intros st Hout; [done| |done].
  simpl app. rewrite !main_loop_yield in *.
  destruct (loop_body ss sst st ev) as [acts [[s' e'']|st']]; [done|].
  simpl in Hout. by rewrite (IH st' Hout).
Qed.

Lemma main_loop_running_app ss sst st src more :
  outcome (main_loop ss sst st src) = Running ->
  main_loop ss sst st (src ++ more) =
  after (removelast (log (main_loop ss sst st src)))
    (main_loop ss sst (final_rs (main_loop ss sst st src)) more).
Proof.
  revert st. induction src as [|[ev|e'] rest IH]; intros st Hout; [|  |done].
  - simpl. by destruct (main_loop ss sst st more).
  - simpl app. rewrite !main_loop_yield in *.
    destruct (loop_body ss sst st ev) as [acts [[s' e'']|st']]; [done|].
    simpl in Hout. rewrite (IH st' Hout). unfold after.
    cbn [log final_rs outcome]. f_equal.
    rewrite removelast_app by apply main_loop_log_nonempty.
    by rewrite app_assoc.
Qed.

Lemma main_loop_counts ss sst st src :
  let r := main_loop ss sst st src in
  length (records (log r)) <= length (inputs (log r))
  /\ length (inputs (log r)) <= length (arrived src).
Proof.
  cbv zeta. revert st. induction src as [|[ev|e] rest IH]; intros st; [done| |done].
  rewrite main_loop_yield.
  destruct (loop_body_spec ss sst st ev); subst ev; simpl; try lia;
    specialize (IH st'); lia.
Qed.

Lemma filter_sublist_impl {A} (P Q : A -> Prop)
    `{!forall x, Decision (P x)} `{!forall x, Decision (Q x)} (xs : list A) :
  (forall x, P x -> Q x) -> filter P xs `sublist_of` filter Q xs.
Proof.
  intros HPQ. induction xs as [|x xs IH]; [done|].
  destruct (decide (P x)) as [HP|HP].
  - rewrite !filter_cons_True by auto. by apply sublist_skip.
  - rewrite (filter_cons_False P) by done.
    destruct (decide (Q x)).
    + rewrite filter_cons_True by done. by apply sublist_cons.
    + by rewrite filter_cons_False.
Qed.

Lemma filter_Forall_all {A} (P : A -> Prop) `{!forall x, Decision (P x)}
    (xs : list A) :
  Forall P xs -> filter P xs = xs.
Proof.
  induction 1 as [|x xs Hx _ IH]; [done|].
  rewrite filter_cons_True by done. by rewrite IH.
Qed.

(** X3: the text a run writes has two lines for each command it prints,
    and one more for every newline character in a text field of a printed
    command; and the loop prints at most one command for each exchange the
    source delivered: printed commands are among the processed ones,
    processed ones among the decoded ones, decoded ones among the delivered
    ones. *)
Theorem stdout_lines_per_record ss sst st src :
  let r := main_loop ss sst st src in
  newlines (written (stdout (log r)))
  = 2 * length (printed (log r)) + sum_list (field_newlines <$> printed (log r))
  /\ length (printed (log r)) <= length (records (log r))
  /\ length (records (log r)) <= length (inputs (log r))
  /\ length (inputs (log r)) <= length (arrived src).
Proof.
  cbv zeta. split_and!.
  - rewrite stdout_printed.
    induction (printed (log (main_loop ss sst st src))) as [|i l IH]; [done|].
    cbn [flat_map fmap list_fmap sum_list sum_list_with length].
    rewrite written_app, newlines_app, newlines_format_capdu, IH.
    unfold id. lia.
  - rewrite (proj1 (main_loop_printed ss sst st src)). apply length_filter.
  - apply main_loop_counts.
  - apply main_loop_counts.
Qed.

(** X4: once an exception has left the loop nothing more is read: whatever
    the source would have delivered afterwards, the log, the runtime state
    and the exception of the run are the same. *)
Theorem no_read_after_exception ss sst st src more s e
    (Hraised : outcome (main_loop ss sst st src) = Raised s e) :
  main_loop ss sst st (src ++ more) = main_loop ss sst st src.
Proof. by eapply main_loop_raised_app. Qed.

(** X5: a run that is blocked in a read goes on, when the source delivers
    more, exactly as a fresh loop started in the runtime state reached: the
    blocked read becomes the first read of the continuation, and the log is
    the earlier log followed by the log of the continuation. *)
Theorem run_continues_from_reached_state ss sst st src more
    (Hrunning : outcome (main_loop ss sst st src) = Running) :
  let r1 := main_loop ss sst st src in
  let r2 := main_loop ss sst (final_rs r1) more in
  let r := main_loop ss sst st (src ++ more) in
  log r1 = removelast (log r1) ++ [ARead]
  /\ log r = removelast (log r1) ++ log r2
  /\ final_rs r = final_rs r2
  /\ outcome r = outcome r2
  /\ stdout (log r) = stdout (log r1) ++ stdout (log r2).
Proof.
  cbv zeta.
  assert (log (main_loop ss sst st src)
          = removelast (log (main_loop ss sst st src)) ++ [ARead]) as Hlast.
  { clear more. revert st Hrunning.
    induction src as [|[ev|e'] rest IH]; intros st Hout; [done| |done].
    rewrite main_loop_yield in *.
    destruct (loop_body ss sst st ev) as [acts [[s' e'']|st']]; [done|].
    simpl in Hout. unfold after. cbn [log].
    rewrite removelast_app by apply main_loop_log_nonempty.
    rewrite <-app_assoc. f_equal. by apply IH. }
  rewrite (main_loop_running_app _ _ _ _ _ Hrunning). simpl.
  split_and!; try done.
  rewrite Hlast at 2. rewrite !stdout_app. simpl. by rewrite app_nil_r.
Qed.

(** X6: the output is produced as the events arrive: what the loop has
    printed, decoded and processed after any number of reads is a prefix of
    what it has after more reads of the same source. *)
Theorem output_grows_with_the_source ss sst st src n :
  let r1 := main_loop ss sst st (take n src) in
  let r := main_loop ss sst st src in
  stdout (log r1) `prefix_of` stdout (log r)
  /\ printed (log r1) `prefix_of` printed (log r)
  /\ records (log r1) `prefix_of` records (log r)
  /\ inputs (log r1) `prefix_of` inputs (log r).
Proof.
  cbv zeta. revert n st. induction src as [|[ev|e] rest IH]; intros n st.
  - by rewrite take_nil.
  - destruct n as [|n]; [simpl; split_and!; apply prefix_nil|].
    simpl take. rewrite !main_loop_yield.
    destruct (loop_body ss sst st ev) as [acts [[s' e'']|st']]; [done|].
    destruct (IH n st') as (? & ? & ? & ?). simpl.
    change (ARead :: acts ++ ?k) with ((ARead :: acts) ++ k).
    rewrite !stdout_app, !printed_app, !records_app, !inputs_app.
    split_and!; by apply prefix_app.
  - destruct n as [|n]; [simpl; split_and!; apply prefix_nil|done].
Qed.

(** X7: with both suppression toggles off every processed command is
    printed: nothing is suppressed, and the output is the formatting of all
    the records in order. *)
Theorem nothing_suppressed_with_toggles_off st src :
  let r := main_loop false false st src in
  printed (log r) = records (log r)
  /\ suppressed (log r) = []
  /\ stdout (log r) = flat_map format_capdu (records (log r)).
Proof.
  cbv zeta. destruct (main_loop_printed false false st src) as [Hp Hs].
  assert (printed (log (main_loop false false st src))
          = records (log (main_loop false false st src))) as Hall.
  { rewrite Hp. apply filter_Forall_all, Forall_forall. by intros. }
  split_and!; [done| |by rewrite stdout_printed, Hall].
  rewrite Hs. apply filter_Forall_none, Forall_forall. by intros.
Qed.

(** X8: the output filter drops nothing but SELECT commands while
    selections are suppressed and STATUS commands while status is
    suppressed; a command of any other class is printed under every
    setting of the toggles. *)
Theorem only_select_and_status_are_suppressed ss sst st src :
  let r := main_loop ss sst st src in
  Forall (fun i => ss = true /\ inst_class i = UiccSelect
                   \/ sst = true /\ inst_class i = UiccStatus) (suppressed (log r))
  /\ filter (fun i => inst_class i = ApduCommand) (printed (log r))
     = filter (fun i => inst_class i = ApduCommand) (records (log r)).
Proof.
  cbv zeta. destruct (main_loop_printed ss sst st src) as [Hp Hs]. split.
  - rewrite Hs. apply Forall_forall. intros i Hi.
    apply list_elem_of_filter in Hi as [Hi _]. unfold filtered_out in Hi.
    apply orb_true_iff in Hi as [Hi|Hi]; apply andb_true_iff in Hi as [? Hc];
      apply bool_decide_eq_true_1 in Hc; auto.
  - rewrite Hp, list_filter_filter. apply list_filter_iff. intros i.
    split; [tauto|]. intros Hc. split; [done|].
    unfold filtered_out. rewrite Hc. simpl. by rewrite !andb_false_r.
Qed.

(** X10: every event the source hands over is dispatched exactly once, to
    the reset of the runtime state or to the decoder: in any run of main the
    number of reads is the number of resets plus the number of decoder
    calls, plus one for the read the loop is blocked in or that raised. *)
Theorem every_event_is_dispatched_once (t : Tracer Apdu RS) :
  reads (log (main t))
  = resets (log (main t)) + length (inputs (log (main t)))
    + pending_read (outcome (main t)).
Proof.
  unfold main. destruct (source t) as [src|]; [|done].
  generalize (rs t) as st. generalize (suppress_select t) as ss.
  generalize (suppress_status t) as sst. intros sst ss.
  induction src as [|[ev|e] rest IH]; intros st; [done| |done].
  rewrite main_loop_yield.
  destruct (loop_body_spec ss sst st ev); subst ev; try done.
  all: unfold after; cbn [log outcome].
  all: rewrite reads_app, resets_app, inputs_app, length_app, (IH st').
  all: simpl; lia.
Qed.

(** X12: suppressing never adds output and showing never removes any: what
    is printed with both toggles on is a subsequence of what is printed
    under any setting, which is a subsequence of what is printed with both
    toggles off. *)
Theorem suppression_is_monotone ss sst st src :
  printed (log (main_loop true true st src))
    `sublist_of` printed (log (main_loop ss sst st src))
  /\ printed (log (main_loop ss sst st src))
    `sublist_of` printed (log (main_loop false false st src)).
Proof.
  rewrite (proj1 (main_loop_printed true true st src)).
  rewrite (proj1 (main_loop_printed ss sst st src)).
  rewrite (proj1 (main_loop_printed false false st src)).
  destruct (main_loop_independent true true ss sst st src) as (_ & _ & _ & _ & ->).
  destruct (main_loop_independent false false ss sst st src) as (_ & _ & _ & _ & ->).
  split; apply filter_sublist_impl; intros i; unfold filtered_out; simpl.
  - by destruct ss, sst, (bool_decide (inst_class i = UiccSelect)),
      (bool_decide (inst_class i = UiccStatus)).
  - done.
Qed.

End LoopExtras.

(** ** The global command set *)

Section CommandSetExtras.
Import Commands.

(** X11: in the global command set of line 34 the set added last prevails:
    a class and instruction are looked up in the USIM set first, then in the
    UICC set, then in the SIM set, and are unknown to the global set exactly
    when they are unknown to all three. *)
Theorem ApduCommands_precedence (sim uicc usim : Registry) (c i : Z) :
  lookup (ApduCommands sim uicc usim) c i =
    match lookup usim c i with
    | Some d => Some d
    | None =>
        match lookup uicc c i with
        | Some d => Some d
        | None => lookup sim c i
        end
    end
  /\ (lookup (ApduCommands sim uicc usim) c i = None <->
      lookup sim c i = None /\ lookup uicc c i = None /\ lookup usim c i = None).
Proof.
  unfold ApduCommands. rewrite !lookup_merge.
  split; [done|].
  destruct (lookup usim c i), (lookup uicc c i), (lookup sim c i);
    (split; [by intros|by intros (? & ? & ?)]).
Qed.

End CommandSetExtras.

(** ** The further properties on the sample *)

Section ExtraScenarios.
Import CardModel Commands Sample.

#[local] Existing Instance Sample.parser.
#[local] Existing Instance Sample.iface.

(** X2, on the sample: the record of SELECT MF. *)
Lemma columns_aligned_witness :
  let inst := (process (decode commands select_MF) (init MF)).1 in
  lchan_nr inst < 100
  /\ exists head,
       String.length head = 65
       /\ format_capdu inst = [head +:+ col_sw inst +:+ " " +:+ processed inst; separator].
Proof.
  cbv zeta. split; [vm_compute; lia|].
  apply (format_capdu_columns_aligned (process (decode commands select_MF) (init MF)).1);
    vm_compute; lia.
Defined.

(** X4, on the sample: the source ends after SELECT MF; what would follow is
    never read. *)
Lemma no_read_after_exception_witness :
  outcome (main_loop true true (init MF) [Yield (ApduEv select_MF); Raise EndOfStream])
  = Raised AtRead EndOfStream
  /\ main_loop true true (init MF)
       ([Yield (ApduEv select_MF); Raise EndOfStream] ++ [Yield (ApduEv vendor)])
     = main_loop true true (init MF) [Yield (ApduEv select_MF); Raise EndOfStream].
Proof.
  assert (outcome (main_loop true true (init MF)
                     [Yield (ApduEv select_MF); Raise EndOfStream])
          = Raised AtRead EndOfStream) as Hraised by reflexivity.
  split; [exact Hraised|].
  exact (no_read_after_exception true true (init MF)
           [Yield (ApduEv select_MF); Raise EndOfStream] [Yield (ApduEv vendor)]
           AtRead EndOfStream Hraised).
Defined.

(** X5, on the sample: the scenario delivered in two parts. *)
Lemma run_continues_witness :
  outcome (main_loop false false (init MF) (take 2 scenario)) = Running
  /\ stdout (log (main_loop false false (init MF) (take 2 scenario ++ drop 2 scenario)))
     = stdout (log (main_loop false false (init MF) (take 2 scenario)))
       ++ stdout (log (main_loop false false
                         (final_rs (main_loop false false (init MF) (take 2 scenario)))
                         (drop 2 scenario))).
Proof.
  assert (outcome (main_loop false false (init MF) (take 2 scenario)) = Running)
    as Hrunning by reflexivity.
  split; [exact Hrunning|].
  destruct (run_continues_from_reached_state false false (init MF)
              (take 2 scenario) (drop 2 scenario) Hrunning)
    as (_ & _ & _ & _ & Hout).
  exact Hout.
Defined.

End ExtraScenarios.
